(** * Candle: G-code preprocessing utilities (gcodepreprocessorutils.cpp)

    A shallow embedding of the tokenizer, the coordinate extraction, the
    position update, the radius-to-center conversion and the arc
    tessellation of [GcodePreprocessorUtils], with the properties the
    design document states about them.

    Numbers are IEEE-754 values as the C++ code has them: [double] is
    binary64 and the components of a [QVector3D] (Qt 5) are binary32.  Both
    are values of [spec_float], the executable IEEE-754 specification of the
    Standard Library, so every arithmetic step below rounds as the machine
    does.  Functions of the C and Qt libraries that are not basic IEEE
    operations ([hypot], [atan], [cos], [sin], the number parser behind
    [QString::toDouble]) are parameters of the development. *)

From Stdlib Require Import ZArith List String Ascii Bool Lia SpecFloat.
Import ListNotations.

Local Open Scope Z_scope.

(** ** IEEE-754 binary64: the C++ type [double] *)

Module Dbl.

Definition prec : Z := 53.
Definition emax : Z := 1024.

Definition t : Type := spec_float.

Definition add : t -> t -> t := SFadd prec emax.
Definition sub : t -> t -> t := SFsub prec emax.
Definition mul : t -> t -> t := SFmul prec emax.
Definition div : t -> t -> t := SFdiv prec emax.
Definition sqrt : t -> t := SFsqrt prec emax.
Definition opp : t -> t := SFopp.
Definition fabs : t -> t := SFabs.

(** The comparison operators of C++; each is false when an operand is NaN,
    except [!=], which is then true. *)
Definition eqb : t -> t -> bool := SFeqb.
Definition ltb : t -> t -> bool := SFltb.
Definition leb : t -> t -> bool := SFleb.
Definition gtb (a b : t) : bool := SFltb b a.
Definition geb (a b : t) : bool := SFleb b a.
Definition neqb (a b : t) : bool := negb (SFeqb a b).

Definition nan : t := S754_nan.
Definition zero : t := S754_zero false.

(** [_isnan] *)
Definition is_nan (a : t) : bool :=
  match a with S754_nan => true | _ => false end.

(** The double of value [m * 2^e], rounded to nearest even. *)
Definition make (m e : Z) : t := binary_normalize prec emax m e false.

(** Conversion of an [int] to [double] (exact for 32-bit integers). *)
Definition of_int (n : Z) : t := make n 0.

(** [pow(v, 2.0)]: the correctly rounded square. *)
Definition pow2 (v : t) : t := mul v v.

(** [ceil]: the least integral value not below the argument; infinities,
    NaN and zeros are returned as they are, and a negative fraction above
    -1 gives -0. *)
Definition ceil (a : t) : t :=
  match a with
  | S754_finite s m e =>
      if 0 <=? e then a
      else
        let v := cond_Zopp s (Zpos m) in
        let n := - Z.shiftr (- v) (- e) in
        if n =? 0 then S754_zero s else binary_normalize prec emax n 0 s
  | _ => a
  end.

Definition int_min : Z := - 2 ^ 31.
Definition int_max : Z := 2 ^ 31 - 1.

(** The cast [(int)a]: truncation toward zero.  C++ leaves the cast
    undefined when the truncated value is not an [int] (too large, an
    infinity, a NaN): that is [None]. *)
Definition to_int (a : t) : option Z :=
  match a with
  | S754_zero _ => Some 0
  | S754_finite s m e =>
      let q := if 0 <=? e then Z.shiftl (Zpos m) e
               else Z.shiftr (Zpos m) (- e) in
      let n := cond_Zopp s q in
      if (int_min <=? n) && (n <=? int_max) then Some n else None
  | _ => None
  end.

(** [M_PI], the double nearest to pi: 0x1.921fb54442d18p+1. *)
Definition M_PI : t := S754_finite false 7074237752028440 (-51).

End Dbl.

Definition double : Type := Dbl.t.

(** ** IEEE-754 binary32: the C++ type [float] of [QVector3D]'s components *)

Module Flt.

Definition prec : Z := 24.
Definition emax : Z := 128.

Definition t : Type := spec_float.

Definition sub : t -> t -> t := SFsub prec emax.
Definition div : t -> t -> t := SFdiv prec emax.

Definition zero : t := S754_zero false.

Definition make (m e : Z) : t := binary_normalize prec emax m e false.

(** Conversion of an [int] to [float]: rounds above 2^24. *)
Definition of_int (n : Z) : t := make n 0.

(** Widening to [double]: exact, only the representation changes. *)
Definition to_double (a : t) : double :=
  match a with
  | S754_finite s m e => binary_round Dbl.prec Dbl.emax s m e
  | _ => a
  end.

(** Narrowing of a [double], round to nearest even: what storing a
    [double] into a component of a [QVector3D] does. *)
Definition of_double (a : double) : t :=
  match a with
  | S754_finite s m e => binary_round prec emax s m e
  | _ => a
  end.

End Flt.

Definition float : Type := Flt.t.

(** ** QChar and QString

    A [QString] is modelled by a [string] whose characters are the Latin-1
    code points (G-code is ASCII).  The classification and case functions
    follow the Unicode tables on that range. *)

Definition code (c : ascii) : N := N_of_ascii c.

Definition in_range (lo hi n : N) : bool := ((lo <=? n) && (n <=? hi))%N.

(** [QChar::isDigit]: the decimal digits. *)
Definition isDigit (c : ascii) : bool := in_range 48 57 (code c).

(** [QChar::isLetter]: A-Z, a-z, and the Latin-1 letters (feminine and
    masculine ordinal, micro sign, 0xC0-0xFF except the multiplication and
    division signs). *)
Definition isLetter (c : ascii) : bool :=
  let n := code c in
  in_range 65 90 n || in_range 97 122 n
  || (n =? 170)%N || (n =? 181)%N || (n =? 186)%N
  || in_range 192 214 n || in_range 216 246 n || in_range 248 255 n.

(** [QChar::toUpper] followed by [QChar::toLatin1]: the upper-case letter,
    and 0 when the upper-case form leaves Latin-1 (micro sign and y with
    diaeresis). *)
Definition toUpperLatin1 (c : ascii) : ascii :=
  let n := code c in
  if in_range 97 122 n then ascii_of_N (n - 32)
  else if in_range 224 254 n && negb (n =? 247)%N then ascii_of_N (n - 32)
  else if (n =? 181)%N || (n =? 255)%N then ascii_of_N 0
  else c.

(** [QString::mid(1)] *)
Definition mid1 (t : string) : string :=
  match t with
  | EmptyString => EmptyString
  | String _ rest => rest
  end.

(** [QString::append(QChar)] *)
Definition append_char (sb : string) (c : ascii) : string :=
  (sb ++ String c EmptyString)%string.

(** ** QVector3D (Qt 5): three single-precision components

    The accessors [x()], [y()], [z()] return [float]: the difference of two
    components is a [float] subtraction, a component added to a [double] is
    widened first, and the setters narrow the [double] they are given. *)

Record QVector3D : Type := mkQVector3D { vx : float; vy : float; vz : float }.

(** The default constructor: the null vector. *)
Definition nullVector : QVector3D := mkQVector3D Flt.zero Flt.zero Flt.zero.

Definition setX (p : QVector3D) (v : double) : QVector3D :=
  mkQVector3D (Flt.of_double v) (vy p) (vz p).
Definition setY (p : QVector3D) (v : double) : QVector3D :=
  mkQVector3D (vx p) (Flt.of_double v) (vz p).
Definition setZ (p : QVector3D) (v : double) : QVector3D :=
  mkQVector3D (vx p) (vy p) (Flt.of_double v).

(** ** The tokenizer: [splitCommand] *)

(** The body of the [for] loop, as a scan of the remaining characters with
    the loop's three variables: [readNumeric], the token under construction
    [sb] and the tokens found [l].  The end of the scan is the code after
    the loop. *)
Fixpoint splitLoop (cs : string) (readNumeric : bool) (sb : string)
    (l : list string) : list string :=
  match cs with
  | EmptyString => if (0 <? length sb)%nat then l ++ [sb] else l
  | String c rest =>
      if readNumeric && negb (isDigit c) && negb (Ascii.eqb c ".") then
        splitLoop rest false
          (if isLetter c then append_char EmptyString c else EmptyString)
          (l ++ [sb])
      else if isDigit c || Ascii.eqb c "." || Ascii.eqb c "-" then
        splitLoop rest true (append_char sb c) l
      else if isLetter c then
        splitLoop rest readNumeric (append_char sb c) l
      else
        splitLoop rest readNumeric sb l
  end.

Definition splitCommand (command : string) : list string :=
  splitLoop command false EmptyString [].

(** ** Coordinates, position update, arc center and tessellation *)

Section Core.

(** The number parser of [QString::toDouble]: the value read, or [None]
    where Qt reports a failed conversion. *)
Variable strtod : string -> option double.

(** The C library functions used by the arc geometry. *)
Variable hypot : double -> double -> double.
Variables atan cos sin : double -> double.

(** [QString::toDouble()]: 0.0 when the conversion fails. *)
Definition toDouble (s : string) : double :=
  match strtod s with
  | Some d => d
  | None => Dbl.zero
  end.

(** [t.length() > 0 && t.at(0).toUpper().toLatin1() == address] *)
Definition hasAddress (t : string) (address : ascii) : bool :=
  match t with
  | EmptyString => false
  | String a _ => Ascii.eqb (toUpperLatin1 a) address
  end.

(** [parseCoord]: the [foreach] returns at the first token that has the
    address; the quiet NaN is the result when the list has none. *)
Fixpoint parseCoord (argList : list string) (c : ascii) : double :=
  match argList with
  | [] => Dbl.nan
  | t :: rest =>
      if hasAddress t (toUpperLatin1 c) then toDouble (mid1 t)
      else parseCoord rest c
  end.

(** [updatePointWithCommand(QVector3D, double, double, double, bool)] *)
Definition updatePointWithCommand (initial : QVector3D) (x y z : double)
    (absoluteMode : bool) : QVector3D :=
  let newPoint := mkQVector3D (vx initial) (vy initial) (vz initial) in
  if absoluteMode then
    let newPoint := if negb (Dbl.is_nan x) then setX newPoint x else newPoint in
    let newPoint := if negb (Dbl.is_nan y) then setY newPoint y else newPoint in
    if negb (Dbl.is_nan z) then setZ newPoint z else newPoint
  else
    let newPoint :=
      if negb (Dbl.is_nan x)
      then setX newPoint (Dbl.add (Flt.to_double (vx newPoint)) x)
      else newPoint in
    let newPoint :=
      if negb (Dbl.is_nan y)
      then setY newPoint (Dbl.add (Flt.to_double (vy newPoint)) y)
      else newPoint in
    if negb (Dbl.is_nan z)
    then setZ newPoint (Dbl.add (Flt.to_double (vz newPoint)) z)
    else newPoint.

(** [updatePointWithCommand(QList<QString>, QVector3D, bool)] *)
Definition updatePointWithCommandArgs (commandArgs : list string)
    (initial : QVector3D) (absoluteMode : bool) : QVector3D :=
  let x := parseCoord commandArgs "X" in
  let y := parseCoord commandArgs "Y" in
  let z := parseCoord commandArgs "Z" in
  updatePointWithCommand initial x y z absoluteMode.

(** [updatePointWithCommand(QString, QVector3D, bool)] *)
Definition updatePointWithCommandStr (command : string)
    (initial : QVector3D) (absoluteMode : bool) : QVector3D :=
  updatePointWithCommandArgs (splitCommand command) initial absoluteMode.

(** *** Radius form of an arc: [convertRToCenter] *)

(** [x] and [y]: the chord, a [float] subtraction widened to [double]. *)
Definition chordX (start end_ : QVector3D) : double :=
  Flt.to_double (Flt.sub (vx end_) (vx start)).
Definition chordY (start end_ : QVector3D) : double :=
  Flt.to_double (Flt.sub (vy end_) (vy start)).

(** [h_x2_div_d] as first computed: [4 * R * R - x * x - y * y]. *)
Definition discriminant (start end_ : QVector3D) (R : double) : double :=
  let x := chordX start end_ in
  let y := chordY start end_ in
  Dbl.sub (Dbl.sub (Dbl.mul (Dbl.mul (Dbl.of_int 4) R) R) (Dbl.mul x x))
          (Dbl.mul y y).

(** What the function writes to [qDebug()]; it is no part of the value
    returned. *)
Definition convertRToCenter_debug (start end_ : QVector3D) (R : double)
    : list string :=
  if Dbl.ltb (discriminant start end_ R) Dbl.zero
  then ["Error computing arc radius."%string]
  else [].

(** [h_x2_div_d] after the square root and the two sign flips.  The
    assignment [radius = -radius] of the second flip changes a local that is
    not read again. *)
Definition h_x2_div_d (start end_ : QVector3D) (R : double)
    (clockwise : bool) : double :=
  let x := chordX start end_ in
  let y := chordY start end_ in
  let h := discriminant start end_ R in
  let h := Dbl.div (Dbl.opp (Dbl.sqrt h)) (hypot x y) in
  let h := if negb clockwise then Dbl.opp h else h in
  if Dbl.ltb R Dbl.zero then Dbl.opp h else h.

Definition offsetX (start end_ : QVector3D) (R : double) (clockwise : bool)
    : double :=
  let x := chordX start end_ in
  let y := chordY start end_ in
  Dbl.mul (Dbl.make 1 (-1))
    (Dbl.sub x (Dbl.mul y (h_x2_div_d start end_ R clockwise))).

Definition offsetY (start end_ : QVector3D) (R : double) (clockwise : bool)
    : double :=
  let x := chordX start end_ in
  let y := chordY start end_ in
  Dbl.mul (Dbl.make 1 (-1))
    (Dbl.add y (Dbl.mul x (h_x2_div_d start end_ R clockwise))).

Definition convertRToCenter (start end_ : QVector3D) (radius : double)
    (absoluteIJK clockwise : bool) : QVector3D :=
  let center := nullVector in
  let offX := offsetX start end_ radius clockwise in
  let offY := offsetY start end_ radius clockwise in
  if negb absoluteIJK then
    let center := setX center (Dbl.add (Flt.to_double (vx start)) offX) in
    setY center (Dbl.add (Flt.to_double (vy start)) offY)
  else
    let center := setX center offX in
    setY center offY.

Definition updateCenterWithCommand (commandArgs : list string)
    (initial nextPoint : QVector3D) (absoluteIJKMode clockwise : bool)
    : QVector3D :=
  let i := parseCoord commandArgs "I" in
  let j := parseCoord commandArgs "J" in
  let k := parseCoord commandArgs "K" in
  let radius := parseCoord commandArgs "R" in
  if Dbl.is_nan i && Dbl.is_nan j && Dbl.is_nan k then
    convertRToCenter initial nextPoint radius absoluteIJKMode clockwise
  else
    updatePointWithCommand initial i j k absoluteIJKMode.

(** *** Angles *)

Definition two_pi : double := Dbl.mul Dbl.M_PI (Dbl.of_int 2).

(** [getAngle]; [abs] is read as the absolute value of a [double]. *)
Definition getAngle (start end_ : QVector3D) : double :=
  let deltaX := Flt.to_double (Flt.sub (vx end_) (vx start)) in
  let deltaY := Flt.to_double (Flt.sub (vy end_) (vy start)) in
  if Dbl.neqb deltaX Dbl.zero then
    if Dbl.gtb deltaX Dbl.zero && Dbl.geb deltaY Dbl.zero then
      atan (Dbl.div deltaY deltaX)
    else if Dbl.ltb deltaX Dbl.zero && Dbl.geb deltaY Dbl.zero then
      Dbl.sub Dbl.M_PI (Dbl.fabs (atan (Dbl.div deltaY deltaX)))
    else if Dbl.ltb deltaX Dbl.zero && Dbl.ltb deltaY Dbl.zero then
      Dbl.add Dbl.M_PI (Dbl.fabs (atan (Dbl.div deltaY deltaX)))
    else if Dbl.gtb deltaX Dbl.zero && Dbl.ltb deltaY Dbl.zero then
      Dbl.sub two_pi (Dbl.fabs (atan (Dbl.div deltaY deltaX)))
    else Dbl.zero
  else if Dbl.gtb deltaY Dbl.zero then
    Dbl.div Dbl.M_PI (Dbl.of_int 2)
  else
    Dbl.div (Dbl.mul Dbl.M_PI (Dbl.of_int 3)) (Dbl.of_int 2).

Definition calculateSweep (startAngle endAngle : double) (isCw : bool)
    : double :=
  if Dbl.eqb startAngle endAngle then two_pi
  else
    let endAngle := if Dbl.eqb endAngle Dbl.zero then two_pi else endAngle in
    if negb isCw && Dbl.ltb endAngle startAngle then
      Dbl.add (Dbl.sub two_pi startAngle) endAngle
    else if isCw && Dbl.gtb endAngle startAngle then
      Dbl.add (Dbl.sub two_pi endAngle) startAngle
    else Dbl.fabs (Dbl.sub endAngle startAngle).

(** *** Tessellation with a given number of points *)

(** One pass of the [for] loop for each of [n] remaining values of [i];
    [lineEnd] and [segments] are the loop's variables. *)
Fixpoint arcLoop (n : nat) (i : Z) (lineEnd : QVector3D)
    (segments : list QVector3D) (center : QVector3D) (isCw : bool)
    (radius startAngle sweep : double) (numPoints : Z)
    (zIncrement : double) : list QVector3D :=
  match n with
  | O => segments
  | S n' =>
      let step := Dbl.div (Dbl.mul (Dbl.of_int i) sweep) (Dbl.of_int numPoints) in
      let angle := if isCw then Dbl.sub startAngle step
                   else Dbl.add startAngle step in
      let angle := if Dbl.geb angle two_pi then Dbl.sub angle two_pi
                   else angle in
      let lineEnd :=
        setX lineEnd (Dbl.add (Dbl.mul (cos angle) radius)
                              (Flt.to_double (vx center))) in
      let lineEnd :=
        setY lineEnd (Dbl.add (Dbl.mul (sin angle) radius)
                              (Flt.to_double (vy center))) in
      let lineEnd :=
        setZ lineEnd (Dbl.add (Flt.to_double (vz lineEnd)) zIncrement) in
      arcLoop n' (i + 1) lineEnd (segments ++ [lineEnd]) center isCw
        radius startAngle sweep numPoints zIncrement
  end.

(** The distance from [center] to [p] in X and Y, as the eight-argument
    overload computes it. *)
Definition distanceXY (p center : QVector3D) : double :=
  Dbl.sqrt (Dbl.add (Dbl.pow2 (Flt.to_double (Flt.sub (vx p) (vx center))))
                    (Dbl.pow2 (Flt.to_double (Flt.sub (vy p) (vy center))))).

(** The overload that takes the start angle, the sweep and the number of
    points.  The loop runs for [i = 1 .. numPoints - 1]. *)
Definition generatePointsAlongArcBDringPoints (p1 p2 center : QVector3D)
    (isCw : bool) (radius startAngle sweep : double) (numPoints : Z)
    : list QVector3D :=
  let lineEnd := mkQVector3D (vx p2) (vy p2) (vz p1) in
  let segments := [] in
  let radius := if Dbl.eqb radius Dbl.zero then distanceXY p1 center
                else radius in
  let zIncrement :=
    Flt.to_double (Flt.div (Flt.sub (vz p2) (vz p1)) (Flt.of_int numPoints)) in
  let segments :=
    arcLoop (Z.to_nat (numPoints - 1)) 1 lineEnd segments center isCw
      radius startAngle sweep numPoints zIncrement in
  segments ++ [p2].

(** *** Tessellation with tolerances *)

(** [radius] after "Calculate radius if necessary". *)
Definition arcRadius (start end_ center : QVector3D) (R : double) : double :=
  if Dbl.eqb R Dbl.zero then
    Dbl.sqrt
      (Dbl.add (Dbl.pow2 (Flt.to_double (Flt.sub (vx start) (vx center))))
               (Dbl.pow2 (Flt.to_double (Flt.sub (vy end_) (vy center)))))
  else R.

Definition arcSweep (start end_ center : QVector3D) (clockwise : bool)
    : double :=
  calculateSweep (getAngle center start) (getAngle center end_) clockwise.

(** [arcLength = sweep * radius] *)
Definition arcLengthOf (start end_ center : QVector3D) (clockwise : bool)
    (R : double) : double :=
  Dbl.mul (arcSweep start end_ center clockwise)
          (arcRadius start end_ center R).

(** The test that ends the function with the empty list. *)
Definition suppressed (arcLength minArcLength : double) : bool :=
  Dbl.gtb minArcLength Dbl.zero && Dbl.ltb arcLength minArcLength.

(** [arcSegmentLength] after the first [if]. *)
Definition segmentLength (sweep radius minArcLength arcSegmentLength : double)
    : double :=
  if Dbl.leb arcSegmentLength Dbl.zero && Dbl.gtb minArcLength Dbl.zero
  then Dbl.div (Dbl.mul sweep radius) minArcLength
  else arcSegmentLength.

(** [numPoints]; [None] where the cast to [int] is undefined. *)
Definition numPointsOf (arcLength arcSegmentLength : double) : option Z :=
  if Dbl.gtb arcSegmentLength Dbl.zero
  then Dbl.to_int (Dbl.ceil (Dbl.div arcLength arcSegmentLength))
  else Some 20.

Definition arcNumPoints (start end_ center : QVector3D) (clockwise : bool)
    (R minArcLength arcSegmentLength : double) : option Z :=
  let radius := arcRadius start end_ center R in
  let sweep := arcSweep start end_ center clockwise in
  numPointsOf (Dbl.mul sweep radius)
    (segmentLength sweep radius minArcLength arcSegmentLength).

(** The overload that takes the tolerances; [None] where the behaviour of
    the C++ code is undefined. *)
Definition generatePointsAlongArcBDring (start end_ center : QVector3D)
    (clockwise : bool) (R minArcLength arcSegmentLength : double)
    : option (list QVector3D) :=
  let radius := arcRadius start end_ center R in
  let startAngle := getAngle center start in
  let sweep := arcSweep start end_ center clockwise in
  let arcLength := Dbl.mul sweep radius in
  if suppressed arcLength minArcLength then Some []
  else
    match arcNumPoints start end_ center clockwise R minArcLength
            arcSegmentLength with
    | None => None
    | Some numPoints =>
        Some (generatePointsAlongArcBDringPoints start end_ center clockwise
                radius startAngle sweep numPoints)
    end.

End Core.

(** ** Stand-ins for the library parameters, for evaluation on examples *)

(** [hypot] without the scaling against overflow: exact wherever the sum of
    squares and its root are. *)
Definition hypot_naive (x y : double) : double :=
  Dbl.sqrt (Dbl.add (Dbl.mul x x) (Dbl.mul y y)).

(** A placeholder for [atan], [cos] and [sin] on inputs that never reach
    them: its NaN would show in any result that used it. *)
Definition trig_unused (_ : double) : double := Dbl.nan.

(** *** A decimal number parser

    Reads [-]digits[.digits] with at least one digit and [None] otherwise,
    and rounds the decimal value to the nearest double. *)

Definition digitValue (c : ascii) : Z := Z.of_N (code c) - 48.

(** Reads a run of digits: the number read so far, how many digits were
    read, and the rest of the string. *)
Fixpoint readDigits (s : string) (acc : Z) (count : nat)
    : Z * nat * string :=
  match s with
  | String c rest =>
      if isDigit c then readDigits rest (10 * acc + digitValue c) (S count)
      else (acc, count, s)
  | EmptyString => (acc, count, s)
  end.

(** The double nearest to [num / 10^scale], with the sign [neg]. *)
Definition decimalToDouble (neg : bool) (num : Z) (scale : nat) : double :=
  match num with
  | Zpos _ =>
      let '(q, e, l) :=
        SFdiv_core_binary Dbl.prec Dbl.emax num 0 (10 ^ Z.of_nat scale) 0 in
      binary_round_aux Dbl.prec Dbl.emax neg q e l
  | _ => S754_zero neg
  end.

Definition decimal_strtod (s : string) : option double :=
  let '(neg, s1) :=
    match s with
    | String "-" rest => (true, rest)
    | _ => (false, s)
    end in
  let '(ip, ni, s2) := readDigits s1 0 0 in
  match s2 with
  | EmptyString =>
      if (0 <? ni)%nat then Some (decimalToDouble neg ip 0) else None
  | String "." s3 =>
      let '(num, nf, s4) := readDigits s3 ip 0 in
      match s4 with
      | EmptyString =>
          if (0 <? ni + nf)%nat then Some (decimalToDouble neg num nf)
          else None
      | _ => None
      end
  | _ => None
  end.

(** A parser that, as Qt 5 does, also reads the text nan as a NaN. *)
Definition nan_strtod (s : string) : option double :=
  if String.eqb s "nan" then Some Dbl.nan else decimal_strtod s.

(** ** Vocabulary of the properties *)

(** The three axes of a position, their address letters and components. *)
Inductive Axis : Type := AxisX | AxisY | AxisZ.

Definition axisLetter (a : Axis) : ascii :=
  match a with
  | AxisX => "X"
  | AxisY => "Y"
  | AxisZ => "Z"
  end%char.

Definition component (a : Axis) (p : QVector3D) : float :=
  match a with
  | AxisX => vx p
  | AxisY => vy p
  | AxisZ => vz p
  end.

(** No token of the list has the address of [c]. *)
Definition noAddress (l : list string) (c : ascii) : bool :=
  forallb (fun t => negb (hasAddress t (toUpperLatin1 c))) l.

(** The tokens of the list that have the address of [c], in order. *)
Definition withAddress (l : list string) (c : ascii) : list string :=
  filter (fun t => hasAddress t (toUpperLatin1 c)) l.

(** The characters of a string, and the characters of a token list. *)
Definition chars (s : string) : list ascii := list_ascii_of_string s.

Definition tokenChars (l : list string) : list ascii := flat_map chars l.

(** The characters the tokenizer never drops. *)
Definition isWordChar (c : ascii) : bool :=
  isLetter c || isDigit c || Ascii.eqb c ".".

(** A position with the given small integer coordinates. *)
Definition point (x y z : Z) : QVector3D :=
  mkQVector3D (Flt.of_int x) (Flt.of_int y) (Flt.of_int z).

(** The tokens [l] with [p] put in front of the first of them; [p] alone
    when there is none and [p] is not empty. *)
Definition prepend (p : string) (l : list string) : list string :=
  match l with
  | [] => if (0 <? length p)%nat then [p] else []
  | t :: ts => (p ++ t)%string :: ts
  end.


(** ** The other utilities of the file *)

(** [QChar::isSpace], which is also the class [\s] of [QRegExp]: the
    controls 9 to 13, the space, and in Latin-1 the next-line control and the
    no-break space. *)
Definition isSpace (c : ascii) : bool :=
  let n := code c in
  in_range 9 13 n || (n =? 32)%N || (n =? 133)%N || (n =? 160)%N.

(** Every character of the string satisfies [p]. *)
Fixpoint allChars (p : ascii -> bool) (s : string) : bool :=
  match s with
  | EmptyString => true
  | String c rest => p c && allChars p rest
  end.

(** The longest prefix of characters that satisfy [p], and what follows it:
    what a greedy [[class]*] takes at the start of the string. *)
Fixpoint span (p : ascii -> bool) (s : string) : string * string :=
  match s with
  | EmptyString => (EmptyString, EmptyString)
  | String c rest =>
      if p c then let (a, b) := span p rest in (String c a, b)
      else (EmptyString, s)
  end.

Definition nonEmpty (s : string) : bool := (0 <? length s)%nat.

(** *** [parseCodes] *)

(** The values of all tokens that have the address, in the order of the
    list. *)
Fixpoint parseCodes (args : list string) (code : ascii) : list string :=
  match args with
  | [] => []
  | s :: rest =>
      if hasAddress s (toUpperLatin1 code)
      then mid1 s :: parseCodes rest code
      else parseCodes rest code
  end.

(** *** [removeAllWhitespace]: every match of [\s] is replaced by nothing *)

Fixpoint removeAllWhitespace (command : string) : string :=
  match command with
  | EmptyString => EmptyString
  | String c rest =>
      if isSpace c then removeAllWhitespace rest
      else String c (removeAllWhitespace rest)
  end.

(** *** [parseGCodes] and [parseMCodes]

    The pattern is [[Gg]0*(\d+)] (and the same with M): the letter, then a
    run of digits of which the capture is what is left after the leading
    zeros, at least one digit. *)

(** The capture of [0*(\d+)] on a run of digits: the greedy [0*] gives back
    one zero when the run has nothing else. *)
Fixpoint dropZeros (run : string) : string :=
  match run with
  | String "0" (String _ _ as rest) => dropZeros rest
  | _ => run
  end.

(** [QString::toInt] on a string of digits: the number, and 0 when it is
    not an [int]. *)
Definition toInt (digits : string) : Z :=
  let '(v, _, _) := readDigits digits 0 0 in
  if v <=? Dbl.int_max then v else 0.

(** The pattern tried at the start of [s]: the capture and the text after
    the match. *)
Definition matchCode (isAddress : ascii -> bool) (s : string)
    : option (string * string) :=
  match s with
  | String c rest =>
      if isAddress c then
        let (run, after) := span isDigit rest in
        if nonEmpty run then Some (dropZeros run, after) else None
      else None
  | EmptyString => None
  end.

(** [re.indexIn(command, pos)] on [s = command.mid(pos)]: the leftmost
    match. *)
Fixpoint indexInCode (isAddress : ascii -> bool) (s : string)
    : option (string * string) :=
  match matchCode isAddress s with
  | Some m => Some m
  | None =>
      match s with
      | String _ rest => indexInCode isAddress rest
      | EmptyString => None
      end
  end.

(** The [while] loop: [fuel] bounds the number of matches, and [s] is the
    command from [pos] on. *)
Fixpoint parseCodeLoop (fuel : nat) (isAddress : ascii -> bool) (s : string)
    : list Z :=
  match fuel with
  | O => []
  | S fuel' =>
      match indexInCode isAddress s with
      | None => []
      | Some (capture, after) =>
          toInt capture :: parseCodeLoop fuel' isAddress after
      end
  end.

Definition isG (c : ascii) : bool := Ascii.eqb c "G" || Ascii.eqb c "g".
Definition isM (c : ascii) : bool := Ascii.eqb c "M" || Ascii.eqb c "m".

(** A match has two characters or more: the length bounds the matches. *)
Definition parseGCodes (command : string) : list Z :=
  parseCodeLoop (length command) isG command.

Definition parseMCodes (command : string) : list Z :=
  parseCodeLoop (length command) isM command.

(** *** [removeComment] *)

Definition isOpen (c : ascii) : bool := Ascii.eqb c "(".
Definition isClose (c : ascii) : bool := Ascii.eqb c ")".
Definition notOpen (c : ascii) : bool := negb (isOpen c).
Definition isSemicolon (c : ascii) : bool := Ascii.eqb c ";".
Definition notSemicolon (c : ascii) : bool := negb (isSemicolon c).

(** What follows the last [')'] of the string; [None] when it has none. *)
Fixpoint afterLastClose (run : string) : option string :=
  match run with
  | EmptyString => None
  | String c rest =>
      match afterLastClose rest with
      | Some a => Some a
      | None => if isClose c then Some rest else None
      end
  end.

(** The pattern [\(+[^\(]*\)+] tried at the start of [s]: the text after
    the match.  [\(+] takes the opening parentheses, [[^\(]*] all that
    follows up to the next opening one, and gives back until [\)+] finds
    its parenthesis: the match ends with the last [')'] of that stretch. *)
Definition matchParens (s : string) : option string :=
  let (opens, s1) := span isOpen s in
  if nonEmpty opens then
    let (run, s2) := span notOpen s1 in
    match afterLastClose run with
    | Some a => Some (a ++ s2)%string
    | None => None
    end
  else None.

(** [command.replace(QRegExp("\\(+[^\\(]*\\)+"), "")]: the matches are taken
    from left to right, a character where none starts is kept. *)
Fixpoint removeParens (fuel : nat) (s : string) : string :=
  match fuel with
  | O => s
  | S fuel' =>
      match s with
      | EmptyString => EmptyString
      | String c rest =>
          match matchParens s with
          | Some after => removeParens fuel' after
          | None => String c (removeParens fuel' rest)
          end
      end
  end.

(** [command.replace(QRegExp(";.*"), "")]: the [.] of [QRegExp] matches
    every character, so the first semicolon ends the command. *)
Definition cutSemicolon (s : string) : string := fst (span notSemicolon s).

(** [QString::trimmed] *)
Fixpoint dropSpaces (s : string) : string :=
  match s with
  | String c rest => if isSpace c then dropSpaces rest else s
  | EmptyString => EmptyString
  end.

Fixpoint dropTrailingSpaces (s : string) : string :=
  match s with
  | EmptyString => EmptyString
  | String c rest =>
      match dropTrailingSpaces rest with
      | EmptyString => if isSpace c then EmptyString
                       else String c EmptyString
      | rest' => String c rest'
      end
  end.

Definition trimmed (s : string) : string := dropTrailingSpaces (dropSpaces s).

Definition removeComment (command : string) : string :=
  trimmed (cutSemicolon (removeParens (length command) command)).

(** *** [parseComment] *)

Definition notParen (c : ascii) : bool := negb (isOpen c) && negb (isClose c).

(** The pattern of [parseComment] tried at the start of [s], and its
    capture: either [\([^\(\)]*\)], a parenthesis, characters that are no
    parentheses and the closing one, or a semicolon, a character that is no
    semicolon and the rest of the string. *)
Definition matchComment (s : string) : option string :=
  match s with
  | String c rest =>
      if isOpen c then
        let (body, after) := span notParen rest in
        match after with
        | String d _ =>
            if isClose d then Some (String c (body ++ String d EmptyString))
            else None
        | EmptyString => None
        end
      else if isSemicolon c then
        match rest with
        | String d _ => if isSemicolon d then None else Some s
        | EmptyString => None
        end
      else None
  | EmptyString => None
  end.

(** The capture of the leftmost match, and the empty string without one. *)
Fixpoint parseComment (command : string) : string :=
  match matchComment command with
  | Some capture => capture
  | None =>
      match command with
      | String _ rest => parseComment rest
      | EmptyString => EmptyString
      end
  end.

(** *** [generateG1FromPoints] *)

Section Formatter.

(** [QString::number(double, 'f', precision)] *)
Variable number : double -> Z -> string.

Definition generateG1FromPoints (start end_ : QVector3D)
    (absoluteMode : bool) (precision : Z) : string :=
  let sb := "G1"%string in
  if absoluteMode then
    let sb :=
      if negb (Dbl.is_nan (vx end_))
      then (sb ++ ("X" ++ number (Flt.to_double (vx end_)) precision))%string
      else sb in
    let sb :=
      if negb (Dbl.is_nan (vy end_))
      then (sb ++ ("Y" ++ number (Flt.to_double (vy end_)) precision))%string
      else sb in
    if negb (Dbl.is_nan (vz end_))
    then (sb ++ ("Z" ++ number (Flt.to_double (vz end_)) precision))%string
    else sb
  else
    let sb :=
      if negb (Dbl.is_nan (vx end_))
      then (sb ++ ("X" ++ number
                     (Flt.to_double (Flt.sub (vx end_) (vx start)))
                     precision))%string
      else sb in
    let sb :=
      if negb (Dbl.is_nan (vy end_))
      then (sb ++ ("Y" ++ number
                     (Flt.to_double (Flt.sub (vy end_) (vy start)))
                     precision))%string
      else sb in
    if negb (Dbl.is_nan (vz end_))
    then (sb ++ ("Z" ++ number
                   (Flt.to_double (Flt.sub (vz end_) (vz start)))
                   precision))%string
    else sb.

End Formatter.

(** ** Vocabulary of the further properties *)

(** A number that is neither a NaN nor an infinity. *)
Definition isFinite (a : spec_float) : bool :=
  match a with
  | S754_zero _ | S754_finite _ _ _ => true
  | _ => false
  end.

Definition isZero (a : spec_float) : bool :=
  match a with
  | S754_zero _ => true
  | _ => false
  end.

(** The characters that start a numeric run in the tokenizer, those that
    continue it, and those that are neither a letter nor part of a number. *)
Definition isNumStart (c : ascii) : bool :=
  isDigit c || Ascii.eqb c "." || Ascii.eqb c "-".

Definition isNumChar (c : ascii) : bool := isDigit c || Ascii.eqb c ".".

Definition isGapChar (c : ascii) : bool := negb (isLetter c || isNumStart c).

(** The characters a token is made of, and the letters of a string. *)
Definition isTokenChar (c : ascii) : bool := isLetter c || isNumStart c.

Fixpoint lettersOf (s : string) : string :=
  match s with
  | EmptyString => EmptyString
  | String c rest =>
      if isLetter c then String c (lettersOf rest) else lettersOf rest
  end.

(** The number part of a token: empty, or a digit, '.' or '-' followed by
    digits and '.'. *)
Definition numberShape (num : string) : bool :=
  match num with
  | EmptyString => true
  | String c rest => isNumStart c && allChars isNumChar rest
  end.

(** A text that the tokenizer reads as one number: not empty, a digit, '.'
    or '-' and then digits and '.'. *)
Definition isNumberText (t : string) : bool := nonEmpty t && numberShape t.

(** A token: letters, then a number part. *)
Definition tokenShape (t : string) : bool :=
  let (_, num) := span isLetter t in numberShape num.

(** The buffer of the tokenizer: letters only before a numeric run, and
    letters with the run read so far in one. *)
Definition bufferShape (readNumeric : bool) (sb : string) : Prop :=
  if readNumeric
  then exists letters c r,
      sb = (letters ++ String c r)%string /\
      allChars isLetter letters = true /\
      isNumStart c = true /\ allChars isNumChar r = true
  else allChars isLetter sb = true.

(** A word of a command: one letter or more, then a number part that is not
    empty. *)
Definition isWord (w : string) : bool :=
  let (letters, num) := span isLetter w in
  nonEmpty letters && nonEmpty num && numberShape num.

(** A command written from words, each after a gap, and a last gap. *)
Fixpoint render (items : list (string * string)) (tail : string) : string :=
  match items with
  | [] => tail
  | (gap, w) :: rest => (gap ++ w ++ render rest tail)%string
  end.

Definition wellFormedItem (item : string * string) : bool :=
  allChars isGapChar (fst item) && isWord (snd item).

(** No closing parenthesis in the string, and none after its first opening
    one. *)
Definition noClose (s : string) : bool := allChars (fun c => negb (isClose c)) s.

Definition noCommentLeft (s : string) : bool :=
  noClose (snd (span notOpen s)).

(** The stretch before the first opening parenthesis has no closing one. *)
Definition headRunClean (s : string) : bool :=
  noClose (fst (span notOpen s)).

(** The string starts with a digit. *)
Definition startsWithDigit (s : string) : bool :=
  match s with
  | EmptyString => false
  | String c _ => isDigit c
  end.

(** The number that a string of digits writes. *)
Definition decimalValue (digits : string) : Z :=
  fst (fst (readDigits digits 0 0)).

(** The first character, when there is one. *)
Definition headChar (s : string) : option ascii :=
  match s with
  | EmptyString => None
  | String c _ => Some c
  end.

(** *** A fixed-point formatter, to evaluate [generateG1FromPoints] on
    examples: the decimal digits of a finite double rounded to [precision]
    places, half to even. *)

Fixpoint digitsOf (fuel : nat) (n : Z) (acc : string) : string :=
  match fuel with
  | O => acc
  | S fuel' =>
      let acc := String (ascii_of_N (Z.to_N (48 + n mod 10))) acc in
      if n / 10 =? 0 then acc else digitsOf fuel' (n / 10) acc
  end.

Fixpoint padZeros (fuel width : nat) (s : string) : string :=
  match fuel with
  | O => s
  | S fuel' =>
      if (length s <? width)%nat then padZeros fuel' width (String "0" s)
      else s
  end.

Definition fixed_number (v : double) (precision : Z) : string :=
  match v with
  | S754_nan => "nan"
  | S754_infinity s => if s then "-inf" else "inf"
  | _ =>
      let '(neg, m, e) :=
        match v with
        | S754_finite s m e => (s, Zpos m, e)
        | S754_zero s => (s, 0, 0)
        | _ => (false, 0, 0)
        end in
      let p := Z.max 0 precision in
      let num := if 0 <=? e then m * 2 ^ e * 10 ^ p else m * 10 ^ p in
      let den := if 0 <=? e then 1 else 2 ^ (- e) in
      let q := num / den in
      let r := num mod den in
      let q := if (den <? 2 * r) || ((den =? 2 * r) && Z.odd q)
               then q + 1 else q in
      let ds := padZeros (S (Z.to_nat p)) (S (Z.to_nat p))
                  (digitsOf (S (Z.to_nat (Z.log2 q))) q EmptyString) in
      let k := (length ds - Z.to_nat p)%nat in
      let body := if 0 <? p
                  then (substring 0 k ds ++ "." ++ substring k (Z.to_nat p) ds)%string
                  else ds in
      if neg then String "-" body else body
  end.

(** The value that [generateG1FromPoints] writes for an axis, and the word
    it writes: none for an axis of [end_] that is a NaN. *)
Definition writtenValue (start end_ : QVector3D) (absoluteMode : bool)
    (a : Axis) : double :=
  if absoluteMode then Flt.to_double (component a end_)
  else Flt.to_double (Flt.sub (component a end_) (component a start)).

Definition writtenWord (number : double -> Z -> string)
    (start end_ : QVector3D) (absoluteMode : bool) (precision : Z) (a : Axis)
    : list string :=
  if Dbl.is_nan (component a end_) then []
  else [String (axisLetter a)
          (number (writtenValue start end_ absoluteMode a) precision)].

(** The coordinate that is read back from the word of an axis. *)
Definition readBack (strtod : string -> option double)
    (number : double -> Z -> string) (start end_ : QVector3D)
    (absoluteMode : bool) (precision : Z) (a : Axis) : double :=
  if Dbl.is_nan (component a end_) then Dbl.nan
  else toDouble strtod
         (number (writtenValue start end_ absoluteMode a) precision).

(** * Properties *)

(** ** The design document's example, and the model on small inputs *)

Example splitCommand_example :
  splitCommand "G1 X10.5 Y20 F500" = ["G1"; "X10.5"; "Y20"; "F500"]%string.
Proof. reflexivity. Qed.

Example updatePoint_example :
  updatePointWithCommandStr decimal_strtod "G1 X10.5 Y20 F500" (point 0 0 0)
    true
  = mkQVector3D (Flt.make 21 (-1)) (Flt.of_int 20) Flt.zero.
Proof. vm_compute. reflexivity. Qed.

Example updatePoint_relative_example :
  updatePointWithCommandStr decimal_strtod "g1 x-1.5 z2" (point 1 2 3) false
  = mkQVector3D (Flt.make (-1) (-1)) (Flt.of_int 2) (Flt.of_int 5).
Proof. vm_compute. reflexivity. Qed.

(** The radius form under the incremental convention: from (10,0,0) to
    (18,0,0) with R = 5, clockwise, the center is (14,-3,0), at distance 5
    from both points. *)
Example convertRToCenter_example :
  convertRToCenter hypot_naive (point 10 0 0) (point 18 0 0) (Dbl.of_int 5)
    false true = point 14 (-3) 0 /\
  distanceXY (point 10 0 0) (point 14 (-3) 0) = Dbl.of_int 5 /\
  distanceXY (point 18 0 0) (point 14 (-3) 0) = Dbl.of_int 5.
Proof. repeat split; vm_compute; reflexivity. Qed.

(** ** Coordinate extraction *)

Section CoordinateFacts.

Variable strtod : string -> option double.

Lemma parseCoord_app_noAddress (pre rest : list string) (c : ascii) :
  noAddress pre c = true ->
  parseCoord strtod (pre ++ rest) c = parseCoord strtod rest c.
Proof.
  induction pre as [|u pre IH]; simpl; intros H; [reflexivity|].
  apply andb_true_iff in H. destruct H as [Hu Hpre].
  apply negb_true_iff in Hu. rewrite Hu. now apply IH.
Qed.

Lemma parseCoord_absent (l : list string) (c : ascii) :
  noAddress l c = true -> parseCoord strtod l c = Dbl.nan.
Proof.
  intros H. rewrite <- (app_nil_r l).
  now rewrite parseCoord_app_noAddress.
Qed.

Lemma parseCoord_found (pre post : list string) (t : string) (c : ascii) :
  noAddress pre c = true ->
  hasAddress t (toUpperLatin1 c) = true ->
  parseCoord strtod (pre ++ t :: post) c = toDouble strtod (mid1 t).
Proof.
  intros Hpre Ht. rewrite parseCoord_app_noAddress by assumption.
  simpl. now rewrite Ht.
Qed.

End CoordinateFacts.

(** C2 (as amended): when tokens share an address letter, [parseCoord]
    returns the value of the first token of the list that has the address;
    the tokens after it, matching or not, are never read. *)
Theorem parseCoord_first_match :
  forall (strtod : string -> option double) (pre post : list string)
         (t : string) (c : ascii),
    noAddress pre c = true ->
    hasAddress t (toUpperLatin1 c) = true ->
    parseCoord strtod (pre ++ t :: post) c = toDouble strtod (mid1 t).
Proof.
  intros. now apply parseCoord_found.
Qed.

Lemma parseCoord_first_match_witness :
  noAddress ["G1"%string] "x" = true /\
  hasAddress "X1" (toUpperLatin1 "x") = true /\
  parseCoord decimal_strtod
    (["G1"%string] ++ "X1"%string :: ["x2"; "X3"]%string) "x"
  = toDouble decimal_strtod (mid1 "X1").
Proof.
  split; [reflexivity|]. split; [reflexivity|].
  apply (parseCoord_first_match decimal_strtod ["G1"%string]
           ["x2"; "X3"]%string "X1" "x"); reflexivity.
Defined.

(** C2 (as stated) fails: in ["X1"; "X2"] the last token with the address X
    is "X2", of value 2, and [parseCoord] returns 1. *)
Lemma parseCoord_last_match_counterexample :
  last (withAddress ["X1"; "X2"]%string "X") EmptyString = "X2"%string /\
  parseCoord decimal_strtod ["X1"; "X2"]%string "X" = Dbl.of_int 1 /\
  toDouble decimal_strtod (mid1 "X2") = Dbl.of_int 2 /\
  parseCoord decimal_strtod ["X1"; "X2"]%string "X"
  <> toDouble decimal_strtod (mid1 "X2").
Proof.
  repeat split; try reflexivity.
  vm_compute. discriminate.
Qed.

(** ** Position update *)

(** The coordinate that [updatePointWithCommand] reads for an axis. *)
Lemma updatePoint_unset_axis (initial : QVector3D) (x y z : double)
    (absoluteMode : bool) (a : Axis) :
  Dbl.is_nan (match a with AxisX => x | AxisY => y | AxisZ => z end) = true ->
  component a (updatePointWithCommand initial x y z absoluteMode)
  = component a initial.
Proof.
  unfold updatePointWithCommand.
  destruct a, absoluteMode; intros ->; simpl;
    repeat match goal with
           | |- context [negb (Dbl.is_nan ?v)] => destruct (Dbl.is_nan v); simpl
           end; reflexivity.
Qed.

Lemma updatePoint_absolute_axis (initial : QVector3D) (x y z : double)
    (a : Axis) :
  Dbl.is_nan (match a with AxisX => x | AxisY => y | AxisZ => z end) = false ->
  component a (updatePointWithCommand initial x y z true)
  = Flt.of_double (match a with AxisX => x | AxisY => y | AxisZ => z end).
Proof.
  unfold updatePointWithCommand.
  destruct a; intros ->; simpl;
    repeat match goal with
           | |- context [negb (Dbl.is_nan ?v)] => destruct (Dbl.is_nan v); simpl
           end; reflexivity.
Qed.

Lemma updatePointArgs_coordinate (strtod : string -> option double)
    (commandArgs : list string) (initial : QVector3D) (absoluteMode : bool) :
  updatePointWithCommandArgs strtod commandArgs initial absoluteMode
  = updatePointWithCommand initial
      (parseCoord strtod commandArgs (axisLetter AxisX))
      (parseCoord strtod commandArgs (axisLetter AxisY))
      (parseCoord strtod commandArgs (axisLetter AxisZ)) absoluteMode.
Proof. reflexivity. Qed.

(** C9: an axis X, Y or Z for which the token list has no token keeps the
    prior point's value, exactly, in absolute and in relative mode. *)
Theorem updatePoint_absent_axis_unchanged :
  forall (strtod : string -> option double) (commandArgs : list string)
         (initial : QVector3D) (absoluteMode : bool) (a : Axis),
    noAddress commandArgs (axisLetter a) = true ->
    parseCoord strtod commandArgs (axisLetter a) = Dbl.nan /\
    component a (updatePointWithCommandArgs strtod commandArgs initial
                   absoluteMode)
    = component a initial.
Proof.
  intros strtod commandArgs initial absoluteMode a H.
  pose proof (parseCoord_absent strtod commandArgs (axisLetter a) H) as Hnan.
  split; [exact Hnan|].
  rewrite updatePointArgs_coordinate.
  apply updatePoint_unset_axis.
  destruct a; simpl in Hnan |- *; rewrite Hnan; reflexivity.
Qed.

Lemma updatePoint_absent_axis_unchanged_witness :
  noAddress ["G1"; "X10.5"; "Z3"]%string (axisLetter AxisY) = true /\
  component AxisY
    (updatePointWithCommandArgs decimal_strtod ["G1"; "X10.5"; "Z3"]%string
       (point 1 2 3) false)
  = component AxisY (point 1 2 3).
Proof.
  split; [reflexivity|].
  apply (updatePoint_absent_axis_unchanged decimal_strtod
           ["G1"; "X10.5"; "Z3"]%string (point 1 2 3) false AxisY).
  reflexivity.
Defined.

(** C10 (as amended): a token that is the first of the list with an axis
    letter, and whose value part does not convert (Qt reports the failure;
    the empty value part of the bare token "X" is the example), makes
    [parseCoord] return 0.0, which is not the NaN of an absent axis, and
    [updatePointWithCommand] in absolute mode then stores 0 in that axis. *)
Theorem parseCoord_unconvertible_is_zero :
  forall (strtod : string -> option double) (pre post : list string)
         (t : string) (initial : QVector3D) (a : Axis),
    noAddress pre (axisLetter a) = true ->
    hasAddress t (toUpperLatin1 (axisLetter a)) = true ->
    strtod (mid1 t) = None ->
    parseCoord strtod (pre ++ t :: post) (axisLetter a) = Dbl.zero /\
    Dbl.is_nan (parseCoord strtod (pre ++ t :: post) (axisLetter a)) = false /\
    component a (updatePointWithCommandArgs strtod (pre ++ t :: post) initial
                   true)
    = Flt.zero.
Proof.
  intros strtod pre post t initial a Hpre Ht Hfail.
  assert (Hz : parseCoord strtod (pre ++ t :: post) (axisLetter a) = Dbl.zero).
  { rewrite parseCoord_found by assumption.
    unfold toDouble. now rewrite Hfail. }
  split; [exact Hz|]. split; [now rewrite Hz|].
  rewrite updatePointArgs_coordinate, updatePoint_absolute_axis.
  - destruct a; simpl in Hz |- *; rewrite Hz; reflexivity.
  - destruct a; simpl in Hz |- *; rewrite Hz; reflexivity.
Qed.

Lemma parseCoord_unconvertible_is_zero_witness :
  (noAddress ["G1"%string] (axisLetter AxisX) = true /\
   hasAddress "X" (toUpperLatin1 (axisLetter AxisX)) = true /\
   decimal_strtod (mid1 "X") = None) /\
  parseCoord decimal_strtod (["G1"%string] ++ "X"%string :: ["Y2"%string])
    (axisLetter AxisX) = Dbl.zero /\
  component AxisX
    (updatePointWithCommandArgs decimal_strtod
       (["G1"%string] ++ "X"%string :: ["Y2"%string]) (point 7 8 9) true)
  = Flt.zero.
Proof.
  split; [repeat split|].
  pose proof (parseCoord_unconvertible_is_zero decimal_strtod ["G1"%string]
                ["Y2"%string] "X" (point 7 8 9) AxisX
                eq_refl eq_refl eq_refl) as [H1 [_ H3]].
  split; [exact H1 | exact H3].
Defined.

(** C10 (as stated) fails.  In [X5; X] the bare token X has an empty value
    part, and [parseCoord] returns 5, the value of the token before it: the
    absolute update sets X to 5.  With a parser that reads the text nan, as
    Qt 5 does, the value part of Xnan is no numeral and [parseCoord]
    returns the NaN: the axis is left unchanged. *)
Lemma parseCoord_bare_letter_counterexample :
  (parseCoord decimal_strtod ["X5"; "X"]%string "X" = Dbl.of_int 5 /\
   vx (updatePointWithCommandArgs decimal_strtod ["X5"; "X"]%string
         (point 7 8 9) true) = Flt.of_int 5 /\
   Flt.of_int 5 <> Flt.zero) /\
  (parseCoord nan_strtod ["Xnan"%string] "X" = Dbl.nan /\
   vx (updatePointWithCommandArgs nan_strtod ["Xnan"%string] (point 7 8 9)
         true) = Flt.of_int 7 /\
   Flt.of_int 7 <> Flt.zero).
Proof.
  repeat split; try (vm_compute; reflexivity); vm_compute; discriminate.
Qed.

(** ** The tokenizer *)

Lemma append_empty_r (s : string) : (s ++ "")%string = s.
Proof. induction s as [|a s IH]; simpl; [reflexivity | now rewrite IH]. Qed.

Lemma append_assoc (a b c : string) :
  ((a ++ b) ++ c)%string = (a ++ (b ++ c))%string.
Proof. induction a as [|x a IH]; simpl; [reflexivity | now rewrite IH]. Qed.

Lemma chars_append (a b : string) : chars (a ++ b) = chars a ++ chars b.
Proof.
  unfold chars. induction a as [|x a IH]; simpl; [reflexivity | now rewrite IH].
Qed.

Lemma chars_append_char (sb : string) (c : ascii) :
  chars (append_char sb c) = chars sb ++ [c].
Proof. unfold append_char. now rewrite chars_append. Qed.

Lemma tokenChars_snoc (l : list string) (t : string) :
  tokenChars (l ++ [t]) = tokenChars l ++ chars t.
Proof.
  unfold tokenChars. rewrite flat_map_app. simpl. now rewrite app_nil_r.
Qed.

Lemma length_zero_empty (s : string) :
  (0 <? length s)%nat = false -> s = EmptyString.
Proof. destruct s; [reflexivity | discriminate]. Qed.

Lemma length_append_char (sb : string) (c : ascii) :
  (0 <? length (append_char sb c))%nat = true.
Proof. destruct sb; reflexivity. Qed.

(** A letter is neither a digit nor one of the characters '.' and '-'. *)
Lemma isLetter_not_numeric (c : ascii) :
  isLetter c = true ->
  isDigit c = false /\ Ascii.eqb c "." = false /\ Ascii.eqb c "-" = false.
Proof.
  destruct c as [[] [] [] [] [] [] [] []]; vm_compute; intros H;
    try discriminate H; repeat split.
Qed.

(** The tokens found so far are a prefix of the result. *)
Lemma splitLoop_tokens (cs : string) :
  forall (readNumeric : bool) (sb : string) (l : list string),
    splitLoop cs readNumeric sb l = l ++ splitLoop cs readNumeric sb [].
Proof.
  induction cs as [|c rest IH]; intros readNumeric sb l; simpl.
  - destruct (0 <? length sb)%nat; [reflexivity | now rewrite app_nil_r].
  - destruct (readNumeric && negb (isDigit c) && negb (Ascii.eqb c ".")).
    + rewrite IH. rewrite (IH _ _ [sb]). now rewrite app_assoc.
    + destruct (isDigit c || Ascii.eqb c "." || Ascii.eqb c "-");
        [apply IH|].
      destruct (isLetter c); apply IH.
Qed.

(** Characters kept: every letter, digit and '.' of the input is in the
    tokens, in the order of the input, and nothing else is added. *)
Lemma splitLoop_keeps (cs : string) :
  forall (readNumeric : bool) (sb : string) (l : list string),
    filter isWordChar (tokenChars (splitLoop cs readNumeric sb l))
    = filter isWordChar (tokenChars l ++ chars sb ++ chars cs).
Proof.
  induction cs as [|c rest IH]; intros readNumeric sb l; cbn [splitLoop].
  - change (chars "") with (@nil ascii). rewrite app_nil_r.
    destruct (0 <? length sb)%nat eqn:E.
    + now rewrite tokenChars_snoc.
    + apply length_zero_empty in E. subst sb.
      change (chars "") with (@nil ascii). now rewrite app_nil_r.
  - change (chars (String c rest)) with ([c] ++ chars rest).
    destruct (readNumeric && negb (isDigit c) && negb (Ascii.eqb c ".")) eqn:E1.
    + rewrite IH, tokenChars_snoc.
      apply andb_true_iff in E1. destruct E1 as [E1 Edot].
      apply andb_true_iff in E1. destruct E1 as [_ Edig].
      apply negb_true_iff in Edot, Edig.
      rewrite <- app_assoc.
      rewrite !filter_app. f_equal. f_equal. f_equal.
      destruct (isLetter c) eqn:El; simpl.
      * unfold isWordChar. now rewrite El.
      * unfold isWordChar. now rewrite El, Edig, Edot.
    + destruct (isDigit c || Ascii.eqb c "." || Ascii.eqb c "-") eqn:E2.
      * rewrite IH, chars_append_char. now rewrite <- app_assoc.
      * destruct (isLetter c) eqn:El.
        -- rewrite IH, chars_append_char. now rewrite <- app_assoc.
        -- rewrite IH.
           rewrite !filter_app. f_equal. f_equal.
           apply orb_false_iff in E2. destruct E2 as [E2 _].
           apply orb_false_iff in E2. destruct E2 as [Edig Edot].
           simpl. unfold isWordChar. now rewrite El, Edig, Edot.
Qed.

(** No token is empty: a numeric run has put a character into [sb]. *)
Lemma splitLoop_nonempty (cs : string) :
  forall (readNumeric : bool) (sb : string) (l : list string),
    Forall (fun t => t <> EmptyString) l ->
    (readNumeric = true -> sb <> EmptyString) ->
    Forall (fun t => t <> EmptyString) (splitLoop cs readNumeric sb l).
Proof.
  assert (Hsnoc : forall sb c, append_char sb c <> EmptyString)
    by (intros [|] ?; discriminate).
  induction cs as [|c rest IH]; intros readNumeric sb l Hl Hsb; simpl.
  - destruct sb; simpl; [exact Hl|].
    apply Forall_app. split; [exact Hl|]. constructor; [discriminate|constructor].
  - destruct (readNumeric && negb (isDigit c) && negb (Ascii.eqb c ".")) eqn:E1.
    + apply IH; [|discriminate].
      apply Forall_app. split; [exact Hl|].
      constructor; [|constructor].
      apply Hsb. destruct readNumeric; [reflexivity | discriminate].
    + destruct (isDigit c || Ascii.eqb c "." || Ascii.eqb c "-").
      * apply IH; [exact Hl | intros _; apply Hsnoc].
      * destruct (isLetter c).
        -- apply IH; [exact Hl | intros _; apply Hsnoc].
        -- apply IH; assumption.
Qed.

(** What is in [sb] goes in front of the next token. *)
Lemma splitLoop_prepend (cs : string) :
  forall (readNumeric : bool) (p sb : string),
    splitLoop cs readNumeric (p ++ sb) []
    = prepend p (splitLoop cs readNumeric sb []).
Proof.
  induction cs as [|c rest IH]; intros readNumeric p sb; simpl.
  - destruct sb; simpl.
    + rewrite append_empty_r. destruct (0 <? length p)%nat; reflexivity.
    + destruct p; reflexivity.
  - destruct (readNumeric && negb (isDigit c) && negb (Ascii.eqb c ".")).
    + rewrite splitLoop_tokens. rewrite (splitLoop_tokens _ _ _ [sb]).
      reflexivity.
    + unfold append_char. rewrite append_assoc.
      destruct (isDigit c || Ascii.eqb c "." || Ascii.eqb c "-");
        [apply IH|].
      destruct (isLetter c); apply IH.
Qed.

(** C8 (as stated) fails: in "G X10" the letter G is followed by a space,
    not by digits, and it is no token of its own: the one token of the
    result is "GX10". *)
Lemma splitCommand_single_letter_counterexample :
  splitCommand "G X10" = ["GX10"%string] /\
  ~ In "G"%string (splitCommand "G X10").
Proof.
  split; [reflexivity|].
  simpl. intros [H | []]. discriminate H.
Qed.

(** ** The radius form of an arc *)

(** NaN absorbs: the operations below return NaN when given one. *)
Lemma sqrt_negative (d : double) :
  Dbl.ltb d Dbl.zero = true -> Dbl.sqrt d = Dbl.nan.
Proof. destruct d as [[]|[]| |[] m e]; simpl; intros H; try discriminate H; reflexivity. Qed.

Lemma div_nan_l (b : double) : Dbl.div Dbl.nan b = Dbl.nan.
Proof. reflexivity. Qed.

Lemma mul_nan_r (a : double) : Dbl.mul a Dbl.nan = Dbl.nan.
Proof. destruct a; reflexivity. Qed.

Lemma add_nan_r (a : double) : Dbl.add a Dbl.nan = Dbl.nan.
Proof. destruct a; reflexivity. Qed.

Lemma sub_nan_r (a : double) : Dbl.sub a Dbl.nan = Dbl.nan.
Proof. destruct a; reflexivity. Qed.

Lemma h_x2_div_d_nan (hypot : double -> double -> double)
    (start end_ : QVector3D) (R : double) (clockwise : bool) :
  Dbl.ltb (discriminant start end_ R) Dbl.zero = true ->
  h_x2_div_d hypot start end_ R clockwise = Dbl.nan.
Proof.
  intros H. unfold h_x2_div_d. rewrite (sqrt_negative _ H).
  change (Dbl.opp Dbl.nan) with Dbl.nan. rewrite div_nan_l.
  destruct clockwise, (Dbl.ltb R Dbl.zero); reflexivity.
Qed.

Lemma offsets_nan (hypot : double -> double -> double)
    (start end_ : QVector3D) (R : double) (clockwise : bool) :
  Dbl.ltb (discriminant start end_ R) Dbl.zero = true ->
  offsetX hypot start end_ R clockwise = Dbl.nan /\
  offsetY hypot start end_ R clockwise = Dbl.nan.
Proof.
  intros H. unfold offsetX, offsetY. rewrite (h_x2_div_d_nan _ _ _ _ _ H).
  now rewrite !mul_nan_r, sub_nan_r, add_nan_r, mul_nan_r.
Qed.

(** C1: what the code does where the claim asks for an error result.  With
    [4 R^2 - dx^2 - dy^2 < 0] the function writes "Error computing arc
    radius." to the debug log and goes on: the square root is NaN and the
    center returned has NaN in X and in Y, whatever [hypot] and the two mode
    flags are.  The caller gets no error. *)
Theorem convertRToCenter_negative_discriminant_nan :
  forall (hypot : double -> double -> double) (start end_ : QVector3D)
         (R : double) (absoluteIJK clockwise : bool),
    Dbl.ltb (discriminant start end_ R) Dbl.zero = true ->
    convertRToCenter_debug start end_ R
    = ["Error computing arc radius."%string] /\
    Dbl.is_nan (vx (convertRToCenter hypot start end_ R absoluteIJK
                      clockwise)) = true /\
    Dbl.is_nan (vy (convertRToCenter hypot start end_ R absoluteIJK
                      clockwise)) = true.
Proof.
  intros hypot start end_ R absoluteIJK clockwise H.
  destruct (offsets_nan hypot start end_ R clockwise H) as [Hx Hy].
  split.
  - unfold convertRToCenter_debug. now rewrite H.
  - unfold convertRToCenter. rewrite Hx, Hy.
    destruct absoluteIJK; simpl; rewrite ?add_nan_r; split; reflexivity.
Qed.

Lemma convertRToCenter_negative_discriminant_nan_witness :
  Dbl.ltb (discriminant (point 0 0 0) (point 10 0 0) (Dbl.of_int 1)) Dbl.zero
  = true /\
  Dbl.is_nan (vx (convertRToCenter hypot_naive (point 0 0 0) (point 10 0 0)
                    (Dbl.of_int 1) false true)) = true.
Proof.
  split; [reflexivity|].
  apply (convertRToCenter_negative_discriminant_nan hypot_naive
           (point 0 0 0) (point 10 0 0) (Dbl.of_int 1) false true).
  reflexivity.
Defined.

(** The example arc for any [hypot] that is exact on the chord (8, 0). *)
Lemma convertRToCenter_example_any_hypot
    (hypot : double -> double -> double) (absoluteIJK : bool) :
  hypot (Dbl.of_int 8) Dbl.zero = Dbl.of_int 8 ->
  convertRToCenter hypot (point 10 0 0) (point 18 0 0) (Dbl.of_int 5)
    absoluteIJK true
  = if absoluteIJK then point 4 (-3) 0 else point 14 (-3) 0.
Proof.
  intros H.
  unfold convertRToCenter, offsetX, offsetY, h_x2_div_d.
  change (chordX (point 10 0 0) (point 18 0 0)) with (Dbl.of_int 8).
  change (chordY (point 10 0 0) (point 18 0 0)) with Dbl.zero.
  rewrite H. destruct absoluteIJK; vm_compute; reflexivity.
Qed.

(** C4 (as stated) fails: for the arc from (10,0,0) to (18,0,0) of radius 5
    the offset is (4,-3); under the absolute convention the center returned
    is (4,-3,0), not the absolute point (14,-3,0), and under the incremental
    convention it is (14,-3,0), not the bare offset. *)
Lemma convertRToCenter_convention_counterexample :
  offsetX hypot_naive (point 10 0 0) (point 18 0 0) (Dbl.of_int 5) true
  = Dbl.of_int 4 /\
  offsetY hypot_naive (point 10 0 0) (point 18 0 0) (Dbl.of_int 5) true
  = Dbl.of_int (-3) /\
  convertRToCenter hypot_naive (point 10 0 0) (point 18 0 0) (Dbl.of_int 5)
    true true = point 4 (-3) 0 /\
  convertRToCenter hypot_naive (point 10 0 0) (point 18 0 0) (Dbl.of_int 5)
    true true <> point 14 (-3) 0 /\
  convertRToCenter hypot_naive (point 10 0 0) (point 18 0 0) (Dbl.of_int 5)
    false true = point 14 (-3) 0 /\
  convertRToCenter hypot_naive (point 10 0 0) (point 18 0 0) (Dbl.of_int 5)
    false true <> point 4 (-3) 0.
Proof.
  repeat split; try (vm_compute; reflexivity); vm_compute; discriminate.
Qed.

(** With I, J and K absent the center comes from the radius. *)
Lemma updateCenter_radius_form (strtod : string -> option double)
    (hypot : double -> double -> double) (commandArgs : list string)
    (initial nextPoint : QVector3D) (absoluteIJKMode clockwise : bool) :
  noAddress commandArgs "I" = true ->
  noAddress commandArgs "J" = true ->
  noAddress commandArgs "K" = true ->
  updateCenterWithCommand strtod hypot commandArgs initial nextPoint
    absoluteIJKMode clockwise
  = convertRToCenter hypot initial nextPoint
      (parseCoord strtod commandArgs "R") absoluteIJKMode clockwise.
Proof.
  intros Hi Hj Hk. unfold updateCenterWithCommand.
  now rewrite !parseCoord_absent by assumption.
Qed.

(** Under the absolute convention the center is a function of the chord
    alone: moving the arc does not move it. *)
Lemma convertRToCenter_absolute_ignores_position
    (hypot : double -> double -> double) (start end_ start' end_' : QVector3D)
    (R : double) (clockwise : bool) :
  chordX start end_ = chordX start' end_' ->
  chordY start end_ = chordY start' end_' ->
  convertRToCenter hypot start end_ R true clockwise
  = convertRToCenter hypot start' end_' R true clockwise.
Proof.
  intros Hx Hy.
  unfold convertRToCenter, offsetX, offsetY, h_x2_div_d, discriminant.
  now rewrite Hx, Hy.
Qed.

(** C3: what the code does where the claim asks for a center at distance
    |R| from the start and the end point.  Under the absolute IJK
    convention the radius path returns the bare offset: for the tokens
    G2 X18 R5 from (10,0,0) to (18,0,0), with I, J and K unset, the center
    resolved is (4,-3,0), less than 7 from the start point and more than 14
    from the end point, and the radius is 5.  The I/J/K path gives the
    absolute center (14,-3,0) under both conventions, and so does the
    radius path under the incremental one; that center is at distance 5
    from both points. *)
Theorem radius_center_under_absolute_ijk :
  (noAddress ["G2"; "X18"; "R5"]%string "I" = true /\
   noAddress ["G2"; "X18"; "R5"]%string "J" = true /\
   noAddress ["G2"; "X18"; "R5"]%string "K" = true /\
   parseCoord decimal_strtod ["G2"; "X18"; "R5"]%string "R" = Dbl.of_int 5) /\
  (updateCenterWithCommand decimal_strtod hypot_naive
     ["G2"; "X18"; "R5"]%string (point 10 0 0) (point 18 0 0) true true
   = point 4 (-3) 0 /\
   Dbl.ltb (distanceXY (point 10 0 0) (point 4 (-3) 0)) (Dbl.of_int 7)
   = true /\
   Dbl.gtb (distanceXY (point 18 0 0) (point 4 (-3) 0)) (Dbl.of_int 14)
   = true) /\
  (updateCenterWithCommand decimal_strtod hypot_naive
     ["G2"; "X18"; "I14"; "J-3"]%string (point 10 0 0) (point 18 0 0) true
     true = point 14 (-3) 0 /\
   updateCenterWithCommand decimal_strtod hypot_naive
     ["G2"; "X18"; "I4"; "J-3"]%string (point 10 0 0) (point 18 0 0) false
     true = point 14 (-3) 0 /\
   updateCenterWithCommand decimal_strtod hypot_naive
     ["G2"; "X18"; "R5"]%string (point 10 0 0) (point 18 0 0) false true
   = point 14 (-3) 0 /\
   distanceXY (point 10 0 0) (point 14 (-3) 0) = Dbl.of_int 5 /\
   distanceXY (point 18 0 0) (point 14 (-3) 0) = Dbl.of_int 5).
Proof. repeat split; vm_compute; reflexivity. Qed.

(** A coordinate that is no NaN is added to its axis in relative mode. *)
Lemma updatePoint_relative_axis (initial : QVector3D) (x y z : double)
    (a : Axis) :
  Dbl.is_nan (match a with AxisX => x | AxisY => y | AxisZ => z end) = false ->
  component a (updatePointWithCommand initial x y z false)
  = Flt.of_double
      (Dbl.add (Flt.to_double (component a initial))
         (match a with AxisX => x | AxisY => y | AxisZ => z end)).
Proof.
  unfold updatePointWithCommand.
  destruct a; intros ->; simpl;
    repeat match goal with
           | |- context [negb (Dbl.is_nan ?v)] => destruct (Dbl.is_nan v); simpl
           end; reflexivity.
Qed.

(** C4 (as amended): for a radius-form arc (I, J and K unset) under the
    incremental IJK convention, the center is the absolute point: the start
    point plus the computed offset in X and Y, with Z 0.  The start point is
    not subtracted back out, and X and Y are those that the I/J/K path gives
    for the same start point with I and J equal to that offset. *)
Theorem radius_center_incremental :
  forall (strtod : string -> option double)
         (hypot : double -> double -> double) (commandArgs : list string)
         (start end_ : QVector3D) (clockwise : bool),
    noAddress commandArgs "I" = true ->
    noAddress commandArgs "J" = true ->
    noAddress commandArgs "K" = true ->
    let R := parseCoord strtod commandArgs "R" in
    let offX := offsetX hypot start end_ R clockwise in
    let offY := offsetY hypot start end_ R clockwise in
    let center := updateCenterWithCommand strtod hypot commandArgs start end_
                    false clockwise in
    center = convertRToCenter hypot start end_ R false clockwise /\
    center = mkQVector3D
               (Flt.of_double (Dbl.add (Flt.to_double (vx start)) offX))
               (Flt.of_double (Dbl.add (Flt.to_double (vy start)) offY))
               Flt.zero /\
    (Dbl.is_nan offX = false ->
     vx center = vx (updatePointWithCommand start offX offY Dbl.nan false)) /\
    (Dbl.is_nan offY = false ->
     vy center = vy (updatePointWithCommand start offX offY Dbl.nan false)).
Proof.
  intros strtod hypot commandArgs start end_ clockwise Hi Hj Hk R offX offY
         center.
  assert (Hc : center = convertRToCenter hypot start end_ R false clockwise)
    by (apply updateCenter_radius_form; assumption).
  split; [exact Hc|]. split; [rewrite Hc; reflexivity|].
  split; intros Hn.
  - change (vx (updatePointWithCommand start offX offY Dbl.nan false))
      with (component AxisX
              (updatePointWithCommand start offX offY Dbl.nan false)).
    rewrite (updatePoint_relative_axis start offX offY Dbl.nan AxisX Hn).
    rewrite Hc. reflexivity.
  - change (vy (updatePointWithCommand start offX offY Dbl.nan false))
      with (component AxisY
              (updatePointWithCommand start offX offY Dbl.nan false)).
    rewrite (updatePoint_relative_axis start offX offY Dbl.nan AxisY Hn).
    rewrite Hc. reflexivity.
Qed.

Lemma radius_center_incremental_witness :
  (noAddress ["G2"; "X18"; "R5"]%string "I" = true /\
   noAddress ["G2"; "X18"; "R5"]%string "J" = true /\
   noAddress ["G2"; "X18"; "R5"]%string "K" = true) /\
  updateCenterWithCommand decimal_strtod hypot_naive
    ["G2"; "X18"; "R5"]%string (point 10 0 0) (point 18 0 0) false true
  = point 14 (-3) 0.
Proof.
  split; [repeat split|].
  destruct (radius_center_incremental decimal_strtod hypot_naive
              ["G2"; "X18"; "R5"]%string (point 10 0 0) (point 18 0 0) true
              eq_refl eq_refl eq_refl) as [_ [H _]].
  rewrite H. vm_compute. reflexivity.
Defined.

(** ** Tessellation *)

(** C5: what the code does where the claim asks for the distance from the
    center to the start point.  With the radius passed as zero, the
    overload that takes the tolerances derives the radius from the X of the
    start point and the Y of the end point: it is the distance from the
    center to the point (start.x, end.y).  For the quarter circle from
    (1,0,0) to (0,1,0) around the origin it is the square root of 2, and the
    distance from the center to the start point is 1. *)
Theorem arcRadius_mixes_start_and_end :
  (forall start end_ center : QVector3D,
      arcRadius start end_ center Dbl.zero
      = distanceXY (mkQVector3D (vx start) (vy end_) (vz start)) center) /\
  arcRadius (point 1 0 0) (point 0 1 0) (point 0 0 0) Dbl.zero
  = Dbl.sqrt (Dbl.of_int 2) /\
  distanceXY (point 1 0 0) (point 0 0 0) = Dbl.of_int 1 /\
  arcRadius (point 1 0 0) (point 0 1 0) (point 0 0 0) Dbl.zero
  <> distanceXY (point 1 0 0) (point 0 0 0).
Proof.
  split; [intros; reflexivity|].
  split; [vm_compute; reflexivity|].
  split; [vm_compute; reflexivity|].
  vm_compute. discriminate.
Qed.

Section TessellationFacts.

Variables atan cos sin : double -> double.

(** Each pass of the loop appends one point. *)
Lemma arcLoop_length (n : nat) :
  forall (i : Z) (lineEnd : QVector3D) (segments : list QVector3D)
         (center : QVector3D) (isCw : bool)
         (radius startAngle sweep : double) (numPoints : Z)
         (zIncrement : double),
    List.length (arcLoop cos sin n i lineEnd segments center isCw radius
                   startAngle sweep numPoints zIncrement)
    = (List.length segments + n)%nat.
Proof.
  induction n as [|n IH]; intros; simpl.
  - lia.
  - rewrite IH, length_app. simpl. lia.
Qed.

(** The overload that takes the number of points returns that many points,
    and one point when the number is below 1. *)
Lemma generatePoints_length (p1 p2 center : QVector3D) (isCw : bool)
    (radius startAngle sweep : double) (numPoints : Z) :
  List.length (generatePointsAlongArcBDringPoints cos sin p1 p2 center isCw
                 radius startAngle sweep numPoints)
  = Z.to_nat (Z.max 1 numPoints).
Proof.
  unfold generatePointsAlongArcBDringPoints.
  rewrite length_app, arcLoop_length. simpl. lia.
Qed.

(** The last point of that overload is [p2] itself. *)
Lemma generatePoints_last (p1 p2 center : QVector3D) (isCw : bool)
    (radius startAngle sweep : double) (numPoints : Z) :
  exists body : list QVector3D,
    generatePointsAlongArcBDringPoints cos sin p1 p2 center isCw radius
      startAngle sweep numPoints = body ++ [p2].
Proof.
  unfold generatePointsAlongArcBDringPoints. eexists. reflexivity.
Qed.

Lemma gtb_zero_not_leb (a : double) :
  Dbl.gtb a Dbl.zero = true -> Dbl.leb a Dbl.zero = false.
Proof.
  destruct a as [[]|[]| |[] m e]; simpl; intros H; try discriminate H;
    reflexivity.
Qed.

End TessellationFacts.

(** C6 (as amended): for a request that the minimum-arc-length test does not
    suppress, the segment length used is the configured one when that is
    positive, and the arc length divided by the minimum arc length when no
    positive segment length is configured and a minimum arc length is; the
    number of segments is (int)ceil(arcLength / segment length) when the
    segment length used is positive and 20 otherwise, so 20 when neither a
    segment length nor a minimum arc length is configured.  No minimum is
    applied to that number; the sequence returned has that many points, and
    one point when the number is below 1. *)
Theorem arc_segment_count :
  forall (atan cos sin : double -> double) (start end_ center : QVector3D)
         (clockwise : bool) (R minArcLength arcSegmentLength : double),
    let arcLength := arcLengthOf atan start end_ center clockwise R in
    let used := segmentLength (arcSweep atan start end_ center clockwise)
                  (arcRadius start end_ center R) minArcLength
                  arcSegmentLength in
    let numPoints := arcNumPoints atan start end_ center clockwise R
                       minArcLength arcSegmentLength in
    suppressed arcLength minArcLength = false ->
    (Dbl.gtb arcSegmentLength Dbl.zero = true -> used = arcSegmentLength) /\
    (Dbl.leb arcSegmentLength Dbl.zero = true ->
     Dbl.gtb minArcLength Dbl.zero = true ->
     used = Dbl.div arcLength minArcLength) /\
    numPoints = (if Dbl.gtb used Dbl.zero
                 then Dbl.to_int (Dbl.ceil (Dbl.div arcLength used))
                 else Some 20) /\
    (Dbl.gtb arcSegmentLength Dbl.zero = false ->
     Dbl.gtb minArcLength Dbl.zero = false -> numPoints = Some 20) /\
    (forall n : Z,
        numPoints = Some n ->
        exists l : list QVector3D,
          generatePointsAlongArcBDring atan cos sin start end_ center
            clockwise R minArcLength arcSegmentLength = Some l /\
          List.length l = Z.to_nat (Z.max 1 n)).
Proof.
  intros atan cos sin start end_ center clockwise R minArcLength
         arcSegmentLength arcLength used numPoints Hs.
  split; [|split; [|split; [|split]]].
  - intros H. unfold used, segmentLength.
    now rewrite (gtb_zero_not_leb _ H).
  - intros H1 H2. unfold used, segmentLength. now rewrite H1, H2.
  - reflexivity.
  - intros H1 H2. unfold numPoints, arcNumPoints, numPointsOf, segmentLength.
    rewrite H2, andb_false_r. now rewrite H1.
  - intros n Hn. unfold generatePointsAlongArcBDring.
    unfold arcLength, arcLengthOf in Hs. cbv zeta. rewrite Hs.
    fold numPoints. rewrite Hn.
    eexists. split; [reflexivity|]. apply generatePoints_length.
Qed.

Lemma arc_segment_count_witness :
  suppressed
    (arcLengthOf trig_unused (point 0 1 0) (point 0 (-1) 0) (point 0 0 0)
       false (Dbl.of_int 1)) (Dbl.of_int 2) = false /\
  arcNumPoints trig_unused (point 0 1 0) (point 0 (-1) 0) (point 0 0 0)
    false (Dbl.of_int 1) (Dbl.of_int 2) (Dbl.of_int 1)
  = (if Dbl.gtb (Dbl.of_int 1) Dbl.zero
     then Dbl.to_int
            (Dbl.ceil
               (Dbl.div
                  (arcLengthOf trig_unused (point 0 1 0) (point 0 (-1) 0)
                     (point 0 0 0) false (Dbl.of_int 1))
                  (Dbl.of_int 1)))
     else Some 20).
Proof.
  split; [reflexivity|].
  apply (arc_segment_count trig_unused trig_unused trig_unused
           (point 0 1 0) (point 0 (-1) 0) (point 0 0 0) false
           (Dbl.of_int 1) (Dbl.of_int 2) (Dbl.of_int 1)).
  reflexivity.
Defined.

(** The half circle from (0,1,0) to (0,-1,0) around the origin never calls
    [atan]: its values do not depend on that function. *)
Lemma half_circle_count_any_atan (atan : double -> double) :
  suppressed
    (arcLengthOf atan (point 0 1 0) (point 0 (-1) 0) (point 0 0 0) false
       (Dbl.of_int 1)) (Dbl.of_int 2) = false /\
  arcNumPoints atan (point 0 1 0) (point 0 (-1) 0) (point 0 0 0) false
    (Dbl.of_int 1) (Dbl.of_int 2) Dbl.zero = Some 2.
Proof. split; vm_compute; reflexivity. Qed.

(** C6 (as stated) fails.  The half circle of radius 1 from (0,1,0) to
    (0,-1,0), with no maximum segment length configured (0) and a minimum
    arc length of 2 that does not suppress it, gets 2 segments and 2 points,
    not 20.  The arc from (0,1,0) to the center itself, radius derived
    (0), with a maximum segment length of 1, gets ceil(0 / 1) = 0 as its
    number of segments: no minimum of 1 is applied. *)
Lemma arc_segment_count_counterexample :
  (suppressed
     (arcLengthOf trig_unused (point 0 1 0) (point 0 (-1) 0) (point 0 0 0)
        false (Dbl.of_int 1)) (Dbl.of_int 2) = false /\
   arcNumPoints trig_unused (point 0 1 0) (point 0 (-1) 0) (point 0 0 0)
     false (Dbl.of_int 1) (Dbl.of_int 2) Dbl.zero = Some 2 /\
   option_map (@List.length QVector3D)
     (generatePointsAlongArcBDring trig_unused trig_unused trig_unused
        (point 0 1 0) (point 0 (-1) 0) (point 0 0 0) false (Dbl.of_int 1)
        (Dbl.of_int 2) Dbl.zero) = Some 2%nat) /\
  (suppressed
     (arcLengthOf trig_unused (point 0 1 0) (point 0 0 0) (point 0 0 0)
        false Dbl.zero) Dbl.zero = false /\
   arcNumPoints trig_unused (point 0 1 0) (point 0 0 0) (point 0 0 0)
     false Dbl.zero Dbl.zero (Dbl.of_int 1) = Some 0).
Proof. repeat split; vm_compute; reflexivity. Qed.

(** C7: a tessellation that returns a non-empty sequence ends with the end
    point the caller passed: the point is appended as it is, after the
    loop, and is no result of the angle computation.  It holds for both
    overloads. *)
Theorem tessellation_ends_with_end_point :
  forall (atan cos sin : double -> double) (start end_ center : QVector3D)
         (clockwise : bool) (R minArcLength arcSegmentLength : double)
         (l : list QVector3D),
    generatePointsAlongArcBDring atan cos sin start end_ center clockwise R
      minArcLength arcSegmentLength = Some l ->
    l <> [] ->
    (exists body : list QVector3D, l = body ++ [end_]) /\
    last l start = end_ /\
    (forall (isCw : bool) (radius startAngle sweep : double) (numPoints : Z),
        last (generatePointsAlongArcBDringPoints cos sin start end_ center
                isCw radius startAngle sweep numPoints) start = end_).
Proof.
  intros atan cos sin start end_ center clockwise R minArcLength
         arcSegmentLength l Hl Hne.
  assert (Hbody : exists body : list QVector3D, l = body ++ [end_]).
  { unfold generatePointsAlongArcBDring in Hl.
    destruct (suppressed _ _).
    - injection Hl as <-. now contradiction Hne.
    - destruct (arcNumPoints _ _ _ _ _ _ _ _) as [n|]; [|discriminate Hl].
      injection Hl as <-. apply generatePoints_last. }
  split; [exact Hbody|]. split.
  - destruct Hbody as [body ->]. apply last_last.
  - intros. destruct (generatePoints_last cos sin start end_ center isCw
                        radius startAngle sweep numPoints) as [body ->].
    apply last_last.
Qed.

Lemma tessellation_ends_with_end_point_witness :
  (generatePointsAlongArcBDring trig_unused trig_unused trig_unused
     (point 0 1 0) (point 0 (-1) 7) (point 0 0 0) false (Dbl.of_int 1)
     Dbl.zero (Dbl.of_int 100) = Some [point 0 (-1) 7] /\
   [point 0 (-1) 7] <> []) /\
  last [point 0 (-1) 7] (point 0 1 0) = point 0 (-1) 7.
Proof.
  split; [split; [vm_compute; reflexivity | discriminate]|].
  apply (tessellation_ends_with_end_point trig_unused trig_unused trig_unused
           (point 0 1 0) (point 0 (-1) 7) (point 0 0 0) false (Dbl.of_int 1)
           Dbl.zero (Dbl.of_int 100) [point 0 (-1) 7]).
  - vm_compute; reflexivity.
  - discriminate.
Defined.

(** * Further properties of the code *)

(** ** Addressed values: [parseCodes] and [parseCoord] *)

Lemma toUpperLatin1_idempotent (c : ascii) :
  toUpperLatin1 (toUpperLatin1 c) = toUpperLatin1 c.
Proof. destruct c as [[] [] [] [] [] [] [] []]; reflexivity. Qed.

(** X1: [parseCodes] lists the values of the tokens that have the address,
    in the order of the list, and [parseCoord] is the conversion of the
    first of them, the NaN when there is none. *)
Theorem parseCoord_is_first_parseCode :
  forall (strtod : string -> option double) (args : list string) (c : ascii),
    parseCodes args c = map mid1 (withAddress args c) /\
    parseCoord strtod args c
    = match parseCodes args c with
      | [] => Dbl.nan
      | v :: _ => toDouble strtod v
      end.
Proof.
  intros strtod args c. unfold withAddress.
  induction args as [|t rest [IH1 IH2]]; simpl; [split; reflexivity|].
  destruct (hasAddress t (toUpperLatin1 c)); simpl.
  - split; [now rewrite IH1 | reflexivity].
  - split; assumption.
Qed.

(** X2: addresses are compared without regard to case, on both sides: the
    letter asked for may be given in either case, and so may the first
    letter of a token. *)
Theorem parseCoord_case_insensitive :
  forall (strtod : string -> option double) (pre post : list string)
         (a b : ascii) (value : string) (c c' : ascii),
    toUpperLatin1 a = toUpperLatin1 b ->
    toUpperLatin1 c = toUpperLatin1 c' ->
    parseCoord strtod (pre ++ String a value :: post) c
    = parseCoord strtod (pre ++ String b value :: post) c' /\
    parseCodes (pre ++ String a value :: post) c
    = parseCodes (pre ++ String b value :: post) c' /\
    parseCoord strtod pre c = parseCoord strtod pre (toUpperLatin1 c).
Proof.
  intros strtod pre post a b value c c' Hab Hc.
  split; [|split].
  - induction pre as [|t pre IH]; simpl.
    + rewrite Hab, Hc. destruct (Ascii.eqb _ _); [reflexivity|].
      induction post as [|u post IHp]; simpl; [reflexivity|].
      rewrite Hc, IHp. reflexivity.
    + rewrite Hc, IH. reflexivity.
  - induction pre as [|t pre IH]; simpl.
    + rewrite Hab, Hc. assert (Hp : parseCodes post c = parseCodes post c').
      { induction post as [|u post IHp]; simpl; [reflexivity|].
        rewrite Hc, IHp. reflexivity. }
      now rewrite Hp.
    + rewrite Hc, IH. reflexivity.
  - induction pre as [|t pre IH]; simpl; [reflexivity|].
    rewrite toUpperLatin1_idempotent, IH. reflexivity.
Qed.

Lemma parseCoord_case_insensitive_witness :
  (toUpperLatin1 "x" = toUpperLatin1 "X" /\
   toUpperLatin1 "X" = toUpperLatin1 "x") /\
  parseCoord decimal_strtod (["G1"%string] ++ "x10.5"%string :: ["Y2"%string])
    "X"
  = parseCoord decimal_strtod
      (["G1"%string] ++ "X10.5"%string :: ["Y2"%string]) "x".
Proof.
  split; [split; reflexivity|].
  apply (parseCoord_case_insensitive decimal_strtod ["G1"%string]
           ["Y2"%string] "x" "X" "10.5" "X" "x"); reflexivity.
Defined.

(** ** Position update *)

(** X3: in absolute mode the update is idempotent: applying the same
    command to its own result changes nothing. *)
Theorem updatePoint_absolute_idempotent :
  forall (strtod : string -> option double) (commandArgs : list string)
         (initial : QVector3D),
    updatePointWithCommandArgs strtod commandArgs
      (updatePointWithCommandArgs strtod commandArgs initial true) true
    = updatePointWithCommandArgs strtod commandArgs initial true.
Proof.
  intros strtod commandArgs initial.
  unfold updatePointWithCommandArgs, updatePointWithCommand.
  destruct (Dbl.is_nan (parseCoord strtod commandArgs "X")),
           (Dbl.is_nan (parseCoord strtod commandArgs "Y")),
           (Dbl.is_nan (parseCoord strtod commandArgs "Z"));
    destruct initial; reflexivity.
Qed.

(** X4: in absolute mode a command that gives X, Y and Z (none of the three
    values a NaN) determines the point: the prior point has no part in
    it. *)
Theorem updatePoint_absolute_overrides :
  forall (strtod : string -> option double) (commandArgs : list string)
         (p q : QVector3D),
    Dbl.is_nan (parseCoord strtod commandArgs "X") = false ->
    Dbl.is_nan (parseCoord strtod commandArgs "Y") = false ->
    Dbl.is_nan (parseCoord strtod commandArgs "Z") = false ->
    updatePointWithCommandArgs strtod commandArgs p true
    = updatePointWithCommandArgs strtod commandArgs q true /\
    updatePointWithCommandArgs strtod commandArgs p true
    = mkQVector3D (Flt.of_double (parseCoord strtod commandArgs "X"))
                  (Flt.of_double (parseCoord strtod commandArgs "Y"))
                  (Flt.of_double (parseCoord strtod commandArgs "Z")).
Proof.
  intros strtod commandArgs p q Hx Hy Hz.
  unfold updatePointWithCommandArgs, updatePointWithCommand.
  rewrite Hx, Hy, Hz. split; reflexivity.
Qed.

Lemma updatePoint_absolute_overrides_witness :
  (Dbl.is_nan (parseCoord decimal_strtod ["X1"; "Y2"; "Z3"]%string "X")
   = false /\
   Dbl.is_nan (parseCoord decimal_strtod ["X1"; "Y2"; "Z3"]%string "Y")
   = false /\
   Dbl.is_nan (parseCoord decimal_strtod ["X1"; "Y2"; "Z3"]%string "Z")
   = false) /\
  updatePointWithCommandArgs decimal_strtod ["X1"; "Y2"; "Z3"]%string
    (point 7 8 9) true
  = updatePointWithCommandArgs decimal_strtod ["X1"; "Y2"; "Z3"]%string
      (point 0 0 0) true.
Proof.
  split; [repeat split|].
  apply (updatePoint_absolute_overrides decimal_strtod
           ["X1"; "Y2"; "Z3"]%string (point 7 8 9) (point 0 0 0));
    reflexivity.
Defined.

(** ** Arc center *)

(** X5: when one of I, J, K has a value, the center is the position update
    of the start point by I, J, K under the IJK convention; the radius
    token, the end point, the direction and [hypot] have no part in it. *)
Theorem updateCenter_offsets_ignore_radius :
  forall (strtod : string -> option double)
         (hypot hypot' : double -> double -> double)
         (commandArgs : list string) (initial nextPoint nextPoint' : QVector3D)
         (absoluteIJKMode clockwise clockwise' : bool),
    Dbl.is_nan (parseCoord strtod commandArgs "I")
    && Dbl.is_nan (parseCoord strtod commandArgs "J")
    && Dbl.is_nan (parseCoord strtod commandArgs "K") = false ->
    updateCenterWithCommand strtod hypot commandArgs initial nextPoint
      absoluteIJKMode clockwise
    = updateCenterWithCommand strtod hypot' commandArgs initial nextPoint'
        absoluteIJKMode clockwise' /\
    updateCenterWithCommand strtod hypot commandArgs initial nextPoint
      absoluteIJKMode clockwise
    = updatePointWithCommand initial
        (parseCoord strtod commandArgs "I")
        (parseCoord strtod commandArgs "J")
        (parseCoord strtod commandArgs "K") absoluteIJKMode.
Proof.
  intros. unfold updateCenterWithCommand. rewrite H. split; reflexivity.
Qed.

Lemma updateCenter_offsets_ignore_radius_witness :
  (Dbl.is_nan (parseCoord decimal_strtod ["G2"; "I5"; "R9"]%string "I")
   && Dbl.is_nan (parseCoord decimal_strtod ["G2"; "I5"; "R9"]%string "J")
   && Dbl.is_nan (parseCoord decimal_strtod ["G2"; "I5"; "R9"]%string "K")
   = false) /\
  updateCenterWithCommand decimal_strtod hypot_naive
    ["G2"; "I5"; "R9"]%string (point 10 0 0) (point 18 0 0) false true
  = point 15 0 0.
Proof.
  split; [reflexivity|].
  destruct (updateCenter_offsets_ignore_radius decimal_strtod hypot_naive
              hypot_naive ["G2"; "I5"; "R9"]%string (point 10 0 0)
              (point 18 0 0) (point 18 0 0) false true true eq_refl)
    as [_ H].
  rewrite H. vm_compute. reflexivity.
Defined.

(** Subtracting a finite [float] from itself gives +0. *)
Lemma flt_sub_diag (a : float) :
  isFinite a = true -> Flt.sub a a = Flt.zero.
Proof.
  destruct a as [[]| | |s m e]; intros H; try discriminate H;
    try reflexivity.
  unfold Flt.sub, SFsub. rewrite Z.sub_diag. reflexivity.
Qed.

(** A number that is no NaN equals itself. *)
Lemma dbl_eqb_refl (a : double) : Dbl.is_nan a = false -> Dbl.eqb a a = true.
Proof.
  destruct a as [s|s| |s m e]; intros H; try discriminate H;
    unfold Dbl.eqb, SFeqb, SFcompare.
  - reflexivity.
  - destruct s; reflexivity.
  - rewrite Z.compare_refl.
    change (Pos.compare_cont Eq m m) with (Pos.compare m m).
    rewrite Pos.compare_refl. destruct s; reflexivity.
Qed.

(** X6: a radius-form arc whose start and end points coincide in X and Y (a
    full circle given by its radius) has no center: for finite coordinates
    and a [hypot] with [hypot(0, 0) = 0], the center returned has NaN in X
    and Y for every radius, direction and IJK convention. *)
Theorem convertRToCenter_null_chord_nan :
  forall (hypot : double -> double -> double) (start end_ : QVector3D)
         (R : double) (absoluteIJK clockwise : bool),
    hypot Dbl.zero Dbl.zero = Dbl.zero ->
    isFinite (vx start) = true -> isFinite (vy start) = true ->
    vx end_ = vx start -> vy end_ = vy start ->
    Dbl.is_nan (vx (convertRToCenter hypot start end_ R absoluteIJK
                      clockwise)) = true /\
    Dbl.is_nan (vy (convertRToCenter hypot start end_ R absoluteIJK
                      clockwise)) = true.
Proof.
  intros hypot start end_ R absoluteIJK clockwise Hh Hfx Hfy Hx Hy.
  assert (Hcx : chordX start end_ = Dbl.zero)
    by (unfold chordX; rewrite Hx, flt_sub_diag by assumption; reflexivity).
  assert (Hcy : chordY start end_ = Dbl.zero)
    by (unfold chordY; rewrite Hy, flt_sub_diag by assumption; reflexivity).
  assert (Hnan : forall v : double,
             Dbl.mul Dbl.zero
               (let h := Dbl.div (Dbl.opp (Dbl.sqrt v)) Dbl.zero in
                let h := if negb clockwise then Dbl.opp h else h in
                if Dbl.ltb R Dbl.zero then Dbl.opp h else h) = Dbl.nan).
  { intros v. cbv zeta.
    destruct (Dbl.sqrt v) as [[]|[]| |[] m e], clockwise,
             (Dbl.ltb R Dbl.zero); reflexivity. }
  assert (Hox : offsetX hypot start end_ R clockwise = Dbl.nan).
  { unfold offsetX, h_x2_div_d. rewrite Hcx, Hcy, Hh.
    cbv zeta in Hnan. rewrite Hnan. reflexivity. }
  assert (Hoy : offsetY hypot start end_ R clockwise = Dbl.nan).
  { unfold offsetY, h_x2_div_d. rewrite Hcx, Hcy, Hh.
    cbv zeta in Hnan. rewrite Hnan. reflexivity. }
  unfold convertRToCenter. rewrite Hox, Hoy.
  destruct absoluteIJK; simpl; rewrite ?add_nan_r; split; reflexivity.
Qed.

Lemma convertRToCenter_null_chord_nan_witness :
  (hypot_naive Dbl.zero Dbl.zero = Dbl.zero /\
   isFinite (vx (point 3 4 0)) = true /\ isFinite (vy (point 3 4 0)) = true) /\
  Dbl.is_nan (vx (convertRToCenter hypot_naive (point 3 4 0) (point 3 4 9)
                    (Dbl.of_int 5) false true)) = true.
Proof.
  split; [repeat split|].
  apply (convertRToCenter_null_chord_nan hypot_naive (point 3 4 0)
           (point 3 4 9) (Dbl.of_int 5) false true); reflexivity.
Defined.

(** ** Angles and sweep *)

(** X7: for a point straight above, below or at the reference point (same
    finite X), [getAngle] never calls [atan]: the angle is pi/2 when the
    point is above and 3 pi/2 otherwise, so the angle from a point to
    itself is 3 pi/2. *)
Theorem getAngle_vertical :
  forall (atan : double -> double) (start end_ : QVector3D),
    isFinite (vx start) = true ->
    vx end_ = vx start ->
    getAngle atan start end_
    = (if Dbl.gtb (Flt.to_double (Flt.sub (vy end_) (vy start))) Dbl.zero
       then Dbl.div Dbl.M_PI (Dbl.of_int 2)
       else Dbl.div (Dbl.mul Dbl.M_PI (Dbl.of_int 3)) (Dbl.of_int 2)) /\
    getAngle atan start start
    = Dbl.div (Dbl.mul Dbl.M_PI (Dbl.of_int 3)) (Dbl.of_int 2).
Proof.
  intros atan start end_ Hf Hx.
  unfold getAngle. rewrite Hx, (flt_sub_diag _ Hf).
  split; [reflexivity|].
  change (Dbl.neqb (Flt.to_double Flt.zero) Dbl.zero) with false.
  cbv iota.
  destruct (vy start) as [[]|[]| |s m e]; try reflexivity.
  rewrite flt_sub_diag by reflexivity. reflexivity.
Qed.

Lemma getAngle_vertical_witness :
  (isFinite (vx (point 2 1 0)) = true /\ vx (point 2 5 0) = vx (point 2 1 0)) /\
  getAngle trig_unused (point 2 1 0) (point 2 5 0)
  = Dbl.div Dbl.M_PI (Dbl.of_int 2).
Proof.
  split; [split; reflexivity|].
  destruct (getAngle_vertical trig_unused (point 2 1 0) (point 2 5 0)
              eq_refl eq_refl) as [H _].
  rewrite H. reflexivity.
Defined.

(** X8: equal start and end angles mean a full circle: the sweep is 2 pi in
    both directions for every angle that is no NaN, and so is the sweep of
    an arc whose end point is its start point. *)
Theorem full_circle_sweep :
  forall (atan : double -> double) (start center : QVector3D)
         (angle : double) (clockwise : bool),
    Dbl.is_nan angle = false ->
    Dbl.is_nan (getAngle atan center start) = false ->
    calculateSweep angle angle clockwise = two_pi /\
    arcSweep atan start start center clockwise = two_pi.
Proof.
  intros atan start center angle clockwise Ha Hg.
  unfold arcSweep, calculateSweep.
  now rewrite (dbl_eqb_refl _ Ha), (dbl_eqb_refl _ Hg).
Qed.

Lemma full_circle_sweep_witness :
  (Dbl.is_nan Dbl.M_PI = false /\
   Dbl.is_nan (getAngle trig_unused (point 0 0 0) (point 0 1 0)) = false) /\
  arcSweep trig_unused (point 0 1 0) (point 0 1 0) (point 0 0 0) true
  = two_pi.
Proof.
  split; [split; reflexivity|].
  apply (full_circle_sweep trig_unused (point 0 1 0) (point 0 0 0) Dbl.M_PI
           true); reflexivity.
Defined.

(** ** Tessellation *)

(** X9: a number of points of 1 or less (0 and the negative numbers too,
    where the Z increment is a division by zero) gives the end point
    alone. *)
Theorem tessellation_single_point :
  forall (cos sin : double -> double) (p1 p2 center : QVector3D)
         (isCw : bool) (radius startAngle sweep : double) (numPoints : Z),
    numPoints <= 1 ->
    generatePointsAlongArcBDringPoints cos sin p1 p2 center isCw radius
      startAngle sweep numPoints = [p2].
Proof.
  intros cos sin p1 p2 center isCw radius startAngle sweep numPoints H.
  unfold generatePointsAlongArcBDringPoints.
  replace (Z.to_nat (numPoints - 1)) with O by lia.
  reflexivity.
Qed.

Lemma tessellation_single_point_witness :
  0 <= 1 /\
  generatePointsAlongArcBDringPoints trig_unused trig_unused (point 1 0 0)
    (point 0 1 5) (point 0 0 0) false (Dbl.of_int 1) Dbl.zero Dbl.M_PI 0
  = [point 0 1 5].
Proof.
  split; [lia|].
  apply (tessellation_single_point trig_unused trig_unused (point 1 0 0)
           (point 0 1 5) (point 0 0 0) false (Dbl.of_int 1) Dbl.zero
           Dbl.M_PI 0).
  lia.
Defined.

(** X10: the tessellation with tolerances returns the empty sequence
    exactly when the minimum-arc-length test suppresses the arc; without a
    positive minimum arc length the result is never empty. *)
Theorem tessellation_empty_iff_suppressed :
  forall (atan cos sin : double -> double) (start end_ center : QVector3D)
         (clockwise : bool) (R minArcLength arcSegmentLength : double)
         (l : list QVector3D),
    generatePointsAlongArcBDring atan cos sin start end_ center clockwise R
      minArcLength arcSegmentLength = Some l ->
    (l = [] <->
     suppressed (arcLengthOf atan start end_ center clockwise R)
       minArcLength = true) /\
    (Dbl.gtb minArcLength Dbl.zero = false -> l <> []).
Proof.
  intros atan cos sin start end_ center clockwise R minArcLength
         arcSegmentLength l Hl.
  unfold generatePointsAlongArcBDring in Hl.
  change (Dbl.mul (arcSweep atan start end_ center clockwise)
            (arcRadius start end_ center R))
    with (arcLengthOf atan start end_ center clockwise R) in Hl.
  destruct (suppressed _ minArcLength) eqn:Hs.
  - injection Hl as <-. split; [tauto|].
    intros Hm. unfold suppressed in Hs. rewrite Hm in Hs. discriminate Hs.
  - destruct (arcNumPoints _ _ _ _ _ _ _ _) as [n|]; [|discriminate Hl].
    injection Hl as <-.
    destruct (generatePoints_last cos sin start end_ center clockwise
                (arcRadius start end_ center R) (getAngle atan center start)
                (arcSweep atan start end_ center clockwise) n) as [body Hb].
    assert (Hne : generatePointsAlongArcBDringPoints cos sin start end_
                    center clockwise (arcRadius start end_ center R)
                    (getAngle atan center start)
                    (arcSweep atan start end_ center clockwise) n <> []).
    { rewrite Hb. destruct body; discriminate. }
    split; [|intros _; exact Hne].
    split; [intros E; contradiction | discriminate].
Qed.

Lemma tessellation_empty_iff_suppressed_witness :
  generatePointsAlongArcBDring trig_unused trig_unused trig_unused
    (point 0 1 0) (point 0 (-1) 0) (point 0 0 0) false (Dbl.of_int 1)
    (Dbl.of_int 4) Dbl.zero = Some [] /\
  suppressed
    (arcLengthOf trig_unused (point 0 1 0) (point 0 (-1) 0) (point 0 0 0)
       false (Dbl.of_int 1)) (Dbl.of_int 4) = true.
Proof.
  assert (H : generatePointsAlongArcBDring trig_unused trig_unused
                trig_unused (point 0 1 0) (point 0 (-1) 0) (point 0 0 0)
                false (Dbl.of_int 1) (Dbl.of_int 4) Dbl.zero = Some [])
    by (vm_compute; reflexivity).
  split; [exact H|].
  apply (tessellation_empty_iff_suppressed trig_unused trig_unused
           trig_unused (point 0 1 0) (point 0 (-1) 0) (point 0 0 0) false
           (Dbl.of_int 1) (Dbl.of_int 4) Dbl.zero [] H).
  reflexivity.
Defined.

(** ** The tokenizer, further *)

Lemma allChars_app (p : ascii -> bool) (a b : string) :
  allChars p (a ++ b) = allChars p a && allChars p b.
Proof.
  induction a as [|c a IH]; simpl; [reflexivity|].
  now rewrite IH, andb_assoc.
Qed.

Lemma span_spec (p : ascii -> bool) (s : string) :
  s = (fst (span p s) ++ snd (span p s))%string /\
  allChars p (fst (span p s)) = true /\
  match snd (span p s) with
  | EmptyString => True
  | String c _ => p c = false
  end.
Proof.
  induction s as [|c s (IH1 & IH2 & IH3)]; simpl; [auto|].
  destruct (p c) eqn:E.
  - destruct (span p s) as [a b]; simpl in *.
    rewrite E, IH2. split; [now rewrite <- IH1 | auto].
  - simpl. rewrite E. auto.
Qed.

Lemma span_app_all (p : ascii -> bool) (a b : string) :
  allChars p a = true ->
  span p (a ++ b) = ((a ++ fst (span p b))%string, snd (span p b)).
Proof.
  induction a as [|c a IH]; simpl; intros H.
  - now destruct (span p b).
  - apply andb_true_iff in H. destruct H as [Hc Ha].
    rewrite Hc, (IH Ha). reflexivity.
Qed.

Lemma span_stop (p : ascii -> bool) (c : ascii) (s : string) :
  p c = false -> span p (String c s) = (EmptyString, String c s).
Proof. intros H. simpl. now rewrite H. Qed.

Lemma isNumStart_not_letter (c : ascii) :
  isNumStart c = true -> isLetter c = false.
Proof.
  destruct (isLetter c) eqn:E; [|reflexivity].
  destruct (isLetter_not_numeric c E) as [Hd [Hdot Hm]].
  unfold isNumStart. now rewrite Hd, Hdot, Hm.
Qed.

(** The four steps of the scan. *)
Lemma splitLoop_letter (c : ascii) (rest sb : string) (l : list string) :
  isLetter c = true ->
  splitLoop (String c rest) false sb l
  = splitLoop rest false (append_char sb c) l.
Proof.
  intros H. destruct (isLetter_not_numeric c H) as [Hd [Hdot Hm]].
  simpl. now rewrite Hd, Hdot, Hm, H.
Qed.

Lemma splitLoop_number_start (c : ascii) (rest sb : string)
    (l : list string) :
  isNumStart c = true ->
  splitLoop (String c rest) false sb l
  = splitLoop rest true (append_char sb c) l.
Proof. intros H. unfold isNumStart in H. simpl. now rewrite H. Qed.

Lemma splitLoop_number_char (c : ascii) (rest sb : string)
    (l : list string) :
  isNumChar c = true ->
  splitLoop (String c rest) true sb l
  = splitLoop rest true (append_char sb c) l.
Proof.
  intros H. unfold isNumChar in H. simpl.
  destruct (isDigit c), (Ascii.eqb c "."); simpl in *;
    try reflexivity; discriminate H.
Qed.

Lemma splitLoop_gap (c : ascii) (rest sb : string) (l : list string) :
  isGapChar c = true ->
  splitLoop (String c rest) false sb l = splitLoop rest false sb l.
Proof.
  unfold isGapChar, isNumStart. intros H.
  apply negb_true_iff, orb_false_iff in H. destruct H as [Hl Hn].
  simpl. now rewrite Hn, Hl.
Qed.

Lemma splitLoop_break (c : ascii) (rest sb : string) (l : list string) :
  isNumStart c = false ->
  splitLoop (String c rest) true sb l
  = splitLoop (String c rest) false EmptyString (l ++ [sb]).
Proof.
  unfold isNumStart. intros H.
  apply orb_false_iff in H. destruct H as [H Hm].
  apply orb_false_iff in H. destruct H as [Hd Hdot].
  simpl. rewrite Hd, Hdot, Hm. simpl. destruct (isLetter c); reflexivity.
Qed.

(** X11: every token is a run of letters followed by a number part: the
    number part is empty, or starts with a digit, '.' or '-' and goes on
    with digits and '.'.  A token holds no other character, no letter after
    a digit, and '-' only at the start of its number. *)
Theorem splitCommand_token_shape :
  forall command : string,
    Forall (fun t => tokenShape t = true) (splitCommand command).
Proof.
  assert (Hshape : forall letters num,
             allChars isLetter letters = true ->
             numberShape num = true ->
             tokenShape (letters ++ num) = true).
  { intros letters num Hl Hn. unfold tokenShape.
    rewrite (span_app_all _ _ _ Hl).
    destruct num as [|c r]; [reflexivity|].
    simpl in Hn. apply andb_true_iff in Hn. destruct Hn as [Hc Hr].
    rewrite (span_stop _ _ _ (isNumStart_not_letter c Hc)).
    simpl. now rewrite Hc, Hr. }
  assert (Hloop : forall cs readNumeric sb l,
             Forall (fun t => tokenShape t = true) l ->
             bufferShape readNumeric sb ->
             Forall (fun t => tokenShape t = true)
                    (splitLoop cs readNumeric sb l)).
  { assert (Hsb : forall readNumeric sb,
               bufferShape readNumeric sb -> tokenShape sb = true).
    { intros [|] sb H; unfold bufferShape in H.
      - destruct H as (letters & c & r & -> & Hl & Hc & Hr).
        apply Hshape; [exact Hl|]. simpl. now rewrite Hc, Hr.
      - rewrite <- (append_empty_r sb). now apply Hshape. }
    induction cs as [|c rest IH]; intros readNumeric sb l Hl Hst; simpl.
    - destruct (0 <? length sb)%nat; [|exact Hl].
      apply Forall_app. split; [exact Hl|].
      constructor; [now apply (Hsb readNumeric) | constructor].
    - destruct (readNumeric && negb (isDigit c) && negb (Ascii.eqb c "."))
        eqn:E1.
      + apply IH.
        * apply Forall_app. split; [exact Hl|].
          constructor; [now apply (Hsb readNumeric) | constructor].
        * unfold bufferShape.
          destruct (isLetter c) eqn:El; simpl; [now rewrite El | reflexivity].
      + destruct (isDigit c || Ascii.eqb c "." || Ascii.eqb c "-") eqn:E2.
        * apply IH; [exact Hl|]. unfold bufferShape in *.
          destruct readNumeric.
          -- destruct Hst as (letters & c0 & r & -> & Hle & Hc0 & Hr).
             exists letters, c0, (append_char r c).
             unfold append_char. rewrite append_assoc. simpl.
             repeat split; try assumption.
             rewrite allChars_app, Hr. simpl. unfold isNumChar.
             simpl in E1.
             destruct (isDigit c), (Ascii.eqb c "."); simpl in *;
               try reflexivity; discriminate E1.
          -- exists sb, c, EmptyString. repeat split; assumption.
        * destruct (isLetter c) eqn:El; [|now apply IH].
          apply IH; [exact Hl|]. unfold bufferShape in *.
          destruct readNumeric.
          -- destruct (isLetter_not_numeric c El) as [Hd [Hdot _]].
             simpl in E1. rewrite Hd, Hdot in E1. discriminate E1.
          -- unfold append_char. rewrite allChars_app, Hst. simpl.
             now rewrite El. }
  intros command. unfold splitCommand. apply Hloop; [constructor | reflexivity].
Qed.

Lemma splitLoop_buffer_kept (cs : string) :
  forall (readNumeric : bool) (sb : string) (l : list string),
    sb <> EmptyString -> splitLoop cs readNumeric sb l <> [].
Proof.
  assert (Hsnoc : forall sb c, append_char sb c <> EmptyString)
    by (intros [|] ?; discriminate).
  induction cs as [|c rest IH]; intros readNumeric sb l Hsb; simpl.
  - destruct sb; [contradiction|]. simpl. destruct l; discriminate.
  - destruct (readNumeric && negb (isDigit c) && negb (Ascii.eqb c ".")).
    + rewrite splitLoop_tokens. destruct l; discriminate.
    + destruct (isDigit c || Ascii.eqb c "." || Ascii.eqb c "-");
        [apply IH, Hsnoc|].
      destruct (isLetter c); [apply IH, Hsnoc | now apply IH].
Qed.

(** X12: the tokenizer returns no token exactly when the command has no
    letter, no digit, no '.' and no '-': the empty command and a command of
    blanks and punctuation give the empty list. *)
Theorem splitCommand_empty_iff :
  forall command : string,
    splitCommand command = [] <-> allChars isGapChar command = true.
Proof.
  assert (Hsnoc : forall c, append_char EmptyString c <> EmptyString)
    by discriminate.
  intros command. unfold splitCommand.
  induction command as [|c rest IH]; simpl; [tauto|].
  destruct (isDigit c || Ascii.eqb c "." || Ascii.eqb c "-") eqn:E2.
  - unfold isGapChar, isNumStart. rewrite E2, orb_true_r. simpl.
    split; [|discriminate].
    intros H. exfalso. revert H. apply splitLoop_buffer_kept, Hsnoc.
  - destruct (isLetter c) eqn:El.
    + unfold isGapChar. rewrite El. simpl.
      split; [|discriminate].
      intros H. exfalso. revert H. apply splitLoop_buffer_kept, Hsnoc.
    + unfold isGapChar, isNumStart. rewrite El, E2. simpl. exact IH.
Qed.

(** What a word is made of. *)
Lemma isWord_parts (w : string) :
  isWord w = true ->
  exists a letters c num,
    w = String a (letters ++ String c num) /\
    isLetter a = true /\ allChars isLetter letters = true /\
    isNumStart c = true /\ allChars isNumChar num = true.
Proof.
  unfold isWord. intros H.
  destruct (span_spec isLetter w) as (Hw & Hl & _).
  destruct (span isLetter w) as [letters num]. simpl in *.
  apply andb_true_iff in H. destruct H as [H Hn].
  apply andb_true_iff in H. destruct H as [Hne1 Hne2].
  destruct letters as [|a letters]; [discriminate Hne1|].
  destruct num as [|c num]; [discriminate Hne2|].
  simpl in Hl, Hn. apply andb_true_iff in Hl, Hn.
  exists a, letters, c, num. rewrite Hw. simpl. tauto.
Qed.

Lemma splitLoop_letters (letters : string) :
  forall (rest sb : string) (l : list string),
    allChars isLetter letters = true ->
    splitLoop (letters ++ rest) false sb l
    = splitLoop rest false (sb ++ letters) l.
Proof.
  induction letters as [|c letters IH]; intros rest sb l H; simpl in H.
  - now rewrite append_empty_r.
  - apply andb_true_iff in H. destruct H as [Hc H].
    change (String c letters ++ rest)%string
      with (String c (letters ++ rest)).
    rewrite splitLoop_letter by assumption.
    rewrite IH by assumption. unfold append_char.
    now rewrite append_assoc.
Qed.

Lemma splitLoop_number (num : string) :
  forall (rest sb : string) (l : list string),
    allChars isNumChar num = true ->
    splitLoop (num ++ rest) true sb l = splitLoop rest true (sb ++ num) l.
Proof.
  induction num as [|c num IH]; intros rest sb l H; simpl in H.
  - now rewrite append_empty_r.
  - apply andb_true_iff in H. destruct H as [Hc H].
    change (String c num ++ rest)%string with (String c (num ++ rest)).
    rewrite splitLoop_number_char by assumption.
    rewrite IH by assumption. unfold append_char.
    now rewrite append_assoc.
Qed.

Lemma splitLoop_gaps (gap : string) :
  forall (rest sb : string) (l : list string),
    allChars isGapChar gap = true ->
    splitLoop (gap ++ rest) false sb l = splitLoop rest false sb l.
Proof.
  induction gap as [|c gap IH]; intros rest sb l H; simpl in H;
    [reflexivity|].
  apply andb_true_iff in H. destruct H as [Hc H].
  change (String c gap ++ rest)%string with (String c (gap ++ rest)).
  rewrite splitLoop_gap by assumption. now apply IH.
Qed.

(** A whole word is read into the buffer, from the empty buffer. *)
Lemma splitLoop_word (w rest : string) (l : list string) :
  isWord w = true ->
  splitLoop (w ++ rest) false EmptyString l = splitLoop rest true w l.
Proof.
  intros H.
  destruct (isWord_parts w H) as (a & letters & c & num & -> & Ha & Hl & Hc & Hn).
  change (String a (letters ++ String c num) ++ rest)%string
    with (String a ((letters ++ String c num) ++ rest)).
  rewrite splitLoop_letter by assumption.
  rewrite append_assoc, splitLoop_letters by assumption.
  change (String c num ++ rest)%string with (String c (num ++ rest)).
  rewrite splitLoop_number_start by assumption.
  rewrite splitLoop_number by assumption.
  unfold append_char. simpl. now rewrite !append_assoc.
Qed.

(** The command written from well-formed items is empty or starts with a
    character that begins no number. *)
Lemma render_starts_clear (items : list (string * string)) (tail : string) :
  forallb wellFormedItem items = true ->
  allChars isGapChar tail = true ->
  match headChar (render items tail) with
  | None => True
  | Some c => isNumStart c = false
  end.
Proof.
  assert (Hgap : forall c, isGapChar c = true -> isNumStart c = false).
  { unfold isGapChar. intros c H.
    apply negb_true_iff, orb_false_iff in H. tauto. }
  intros Hi Ht. destruct items as [|[gap w] items]; simpl.
  - destruct tail as [|c tail]; simpl in *; [exact I|].
    apply andb_true_iff in Ht. now apply Hgap.
  - simpl in Hi. apply andb_true_iff in Hi. destruct Hi as [Hi _].
    unfold wellFormedItem in Hi. simpl in Hi.
    apply andb_true_iff in Hi. destruct Hi as [Hg Hw].
    destruct gap as [|c gap]; simpl in *.
    + destruct (isWord_parts w Hw) as (a & ? & ? & ? & -> & Ha & _).
      simpl. destruct (isNumStart a) eqn:E; [|reflexivity].
      apply isNumStart_not_letter in E. congruence.
    + apply andb_true_iff in Hg. now apply Hgap.
Qed.

Lemma splitLoop_render (items : list (string * string)) :
  forall (tail : string) (l : list string),
    forallb wellFormedItem items = true ->
    allChars isGapChar tail = true ->
    splitLoop (render items tail) false EmptyString l
    = l ++ map snd items.
Proof.
  induction items as [|[gap w] items IH]; intros tail l Hi Ht; simpl.
  - rewrite <- (append_empty_r tail), splitLoop_gaps by assumption.
    simpl. now rewrite app_nil_r.
  - simpl in Hi. apply andb_true_iff in Hi. destruct Hi as [Hgw Hi].
    unfold wellFormedItem in Hgw. simpl in Hgw.
    apply andb_true_iff in Hgw. destruct Hgw as [Hg Hw].
    rewrite splitLoop_gaps, splitLoop_word by assumption.
    pose proof (render_starts_clear items tail Hi Ht) as Hc.
    pose proof (IH tail (l ++ [w]) Hi Ht) as IH'.
    destruct (render items tail) as [|c rest] eqn:Er.
    + assert (Hw' : splitLoop EmptyString true w l = l ++ [w])
        by (destruct w; [discriminate Hw | reflexivity]).
      rewrite Hw'. simpl in IH'. rewrite IH'.
      now rewrite <- app_assoc.
    + simpl in Hc. rewrite splitLoop_break by assumption.
      rewrite IH'. now rewrite <- app_assoc.
Qed.

(** X13: a command written from well-formed words (letters, then a number),
    with any blanks or punctuation before, between and after them, or with
    none, is split into exactly those words. *)
Theorem splitCommand_of_words :
  forall (items : list (string * string)) (tail : string),
    forallb wellFormedItem items = true ->
    allChars isGapChar tail = true ->
    splitCommand (render items tail) = map snd items.
Proof.
  intros items tail Hi Ht. unfold splitCommand.
  now rewrite splitLoop_render.
Qed.

Lemma splitCommand_of_words_witness :
  (forallb wellFormedItem
     [("", "G1"); (" ", "X10.5"); ("", "Y-2"); (", ", "f500")]%string = true /\
   allChars isGapChar " " = true) /\
  splitCommand "G1 X10.5Y-2, f500 " = ["G1"; "X10.5"; "Y-2"; "f500"]%string.
Proof.
  split; [split; reflexivity|].
  apply (splitCommand_of_words
           [("", "G1"); (" ", "X10.5"); ("", "Y-2"); (", ", "f500")]%string
           " "); reflexivity.
Defined.

(** Blanks and punctuation never reach a token. *)
Lemma splitLoop_alphabet (cs : string) :
  forall (readNumeric : bool) (sb : string) (l : list string),
    Forall (fun t => allChars isTokenChar t = true) l ->
    allChars isTokenChar sb = true ->
    Forall (fun t => allChars isTokenChar t = true)
           (splitLoop cs readNumeric sb l).
Proof.
  assert (Hsnoc : forall sb c,
             allChars isTokenChar sb = true -> isTokenChar c = true ->
             allChars isTokenChar (append_char sb c) = true).
  { intros sb c Hsb Hc. unfold append_char.
    rewrite allChars_app, Hsb. simpl. now rewrite Hc. }
  induction cs as [|c rest IH]; intros readNumeric sb l Hl Hsb; simpl.
  - destruct (0 <? length sb)%nat; [|exact Hl].
    apply Forall_app. split; [exact Hl | now constructor].
  - destruct (readNumeric && negb (isDigit c) && negb (Ascii.eqb c ".")).
    + apply IH.
      * apply Forall_app. split; [exact Hl | now constructor].
      * destruct (isLetter c) eqn:El; [|reflexivity].
        simpl. unfold isTokenChar. now rewrite El.
    + destruct (isDigit c || Ascii.eqb c "." || Ascii.eqb c "-") eqn:E2.
      * apply IH; [exact Hl|]. apply Hsnoc; [exact Hsb|].
        unfold isTokenChar, isNumStart. now rewrite E2, orb_true_r.
      * destruct (isLetter c) eqn:El; [|now apply IH].
        apply IH; [exact Hl|]. apply Hsnoc; [exact Hsb|].
        unfold isTokenChar. now rewrite El.
Qed.

(** Outside a numeric run no token is ended: a text with no digit, '.' or
    '-' adds its letters to the buffer, which is flushed at the end. *)
Lemma splitLoop_no_number (cs : string) :
  forall (sb : string) (l : list string),
    allChars (fun c => negb (isNumStart c)) cs = true ->
    splitLoop cs false sb l
    = if nonEmpty (sb ++ lettersOf cs) then l ++ [(sb ++ lettersOf cs)%string]
      else l.
Proof.
  induction cs as [|c rest IH]; intros sb l H.
  - simpl. now rewrite append_empty_r.
  - simpl in H. apply andb_true_iff in H. destruct H as [Hc H].
    apply negb_true_iff in Hc.
    destruct (isLetter c) eqn:El.
    + rewrite splitLoop_letter by assumption. rewrite IH by assumption.
      simpl lettersOf. rewrite El. unfold append_char.
      now rewrite append_assoc.
    + rewrite splitLoop_gap
        by (unfold isGapChar; now rewrite El, Hc).
      rewrite IH by assumption. simpl lettersOf. now rewrite El.
Qed.

(** C8 (as amended): the tokenizer is a total function.  It keeps every
    letter, digit and '.' of the input, in order; no token is empty and a
    token holds nothing but letters, digits, '.' and '-', so white space and
    other punctuation are dropped.  A letter read outside a numeric run is
    never made a token of its own: it is appended to the token under
    construction, and the characters that follow (letters, a number)
    continue that same token; a command with no digit, '.' or '-' gives one
    token made of all its letters, or none.  Outside a numeric run a
    character never ends a token: a letter, a digit, '.' or '-' is appended
    and a blank or punctuation is skipped.  Inside a numeric run a digit or
    '.' is appended, and every other character ends the token (a letter
    starts the next one; a '-' is dropped).  The end of the input ends the
    token under construction. *)
Theorem splitCommand_letter_joins_token :
  forall (command : string) (c : ascii) (rest sb : string)
         (l : list string),
    isLetter c = true ->
    filter isWordChar (tokenChars (splitCommand command))
    = filter isWordChar (chars command) /\
    Forall (fun t => t <> EmptyString) (splitCommand command) /\
    splitLoop (String c rest) false sb l
    = l ++ prepend (append_char sb c) (splitCommand rest) /\
    Forall (fun t => allChars isTokenChar t = true) (splitCommand command) /\
    (allChars (fun d => negb (isNumStart d)) command = true ->
     splitCommand command
     = if nonEmpty (lettersOf command) then [lettersOf command] else []) /\
    (forall (d : ascii) (cs b : string) (toks : list string),
        splitLoop (String d cs) false b toks
        = splitLoop cs (isNumStart d)
            (if isGapChar d then b else append_char b d) toks) /\
    (forall (d : ascii) (cs b : string) (toks : list string),
        splitLoop (String d cs) true b toks
        = if isNumChar d then splitLoop cs true (append_char b d) toks
          else splitLoop cs false
                 (if isLetter d then append_char EmptyString d
                  else EmptyString) (toks ++ [b])) /\
    (forall (readNumeric : bool) (b : string) (toks : list string),
        splitLoop EmptyString readNumeric b toks
        = if nonEmpty b then toks ++ [b] else toks).
Proof.
  intros command c rest sb l Hc.
  split; [|split; [|split; [|split; [|split; [|split; [|split]]]]]].
  - unfold splitCommand. now rewrite splitLoop_keeps.
  - unfold splitCommand. apply splitLoop_nonempty; [constructor | discriminate].
  - destruct (isLetter_not_numeric c Hc) as [Hd [Hdot Hminus]].
    simpl. rewrite Hd, Hdot, Hminus, Hc. simpl.
    rewrite splitLoop_tokens. f_equal.
    unfold splitCommand.
    rewrite <- (append_empty_r (append_char sb c)) at 1.
    apply splitLoop_prepend.
  - unfold splitCommand. apply splitLoop_alphabet; [constructor | reflexivity].
  - intros H. unfold splitCommand. now rewrite splitLoop_no_number.
  - intros d cs b toks. destruct (isNumStart d) eqn:En.
    + rewrite splitLoop_number_start by assumption.
      unfold isGapChar. now rewrite En, orb_true_r.
    + destruct (isLetter d) eqn:El.
      * rewrite splitLoop_letter by assumption.
        unfold isGapChar. now rewrite El.
      * rewrite splitLoop_gap by (unfold isGapChar; now rewrite El, En).
        unfold isGapChar. now rewrite El, En.
  - intros d cs b toks. unfold isNumChar. simpl.
    destruct (isDigit d), (Ascii.eqb d "."); simpl; try reflexivity.
  - intros readNumeric b toks. reflexivity.
Qed.

Lemma splitCommand_letter_joins_token_witness :
  isLetter "G" = true /\
  splitCommand "G X10 M Y-2.5" = ["GX10"; "MY-2.5"]%string /\
  Forall (fun t => allChars isTokenChar t = true)
         (splitCommand "G X10 M Y-2.5").
Proof.
  split; [reflexivity|].
  destruct (splitCommand_letter_joins_token "G X10 M Y-2.5" "G"
              " X10 M Y-2.5" EmptyString [] eq_refl)
    as [_ [_ [Hjoin [Halpha _]]]].
  split; [|exact Halpha].
  unfold splitCommand at 1.
  rewrite Hjoin. reflexivity.
Defined.

(** ** G and M codes *)

Lemma length_append (a b : string) :
  length (a ++ b) = (length a + length b)%nat.
Proof. induction a as [|c a IH]; simpl; [reflexivity | now rewrite IH]. Qed.

Lemma span_length (p : ascii -> bool) (s : string) :
  (length (fst (span p s)) + length (snd (span p s)))%nat = length s.
Proof.
  destruct (span_spec p s) as [H _]. rewrite H at 3.
  now rewrite length_append.
Qed.

Lemma matchCode_shorter (p : ascii -> bool) (s capture after : string) :
  matchCode p s = Some (capture, after) ->
  (length after + 2 <= length s)%nat.
Proof.
  destruct s as [|c rest]; simpl; [discriminate|].
  destruct (p c); [|discriminate].
  pose proof (span_length isDigit rest) as Hlen.
  destruct (span isDigit rest) as [run after']. simpl in Hlen.
  destruct run as [|d run]; simpl; [discriminate|].
  intros H. injection H as _ <-. simpl in Hlen. lia.
Qed.

Lemma indexInCode_shorter (p : ascii -> bool) (s : string) :
  forall capture after : string,
    indexInCode p s = Some (capture, after) ->
    (length after + 2 <= length s)%nat.
Proof.
  induction s as [|c rest IH]; intros capture after H.
  - discriminate H.
  - cbn [indexInCode] in H.
    destruct (matchCode p (String c rest)) as [[cap aft]|] eqn:E.
    + injection H as -> ->. now apply (matchCode_shorter p _ capture).
    + apply IH in H. simpl. lia.
Qed.

(** The result of the loop does not depend on the fuel, once it covers the
    length of the text. *)
Lemma parseCodeLoop_fuel (p : ascii -> bool) (f1 : nat) :
  forall (f2 : nat) (s : string),
    (length s <= f1)%nat -> (length s <= f2)%nat ->
    parseCodeLoop f1 p s = parseCodeLoop f2 p s.
Proof.
  induction f1 as [|f1 IH]; intros f2 s H1 H2.
  - destruct s; [|simpl in H1; lia]. destruct f2; reflexivity.
  - destruct f2 as [|f2].
    + destruct s; [reflexivity | simpl in H2; lia].
    + cbn [parseCodeLoop].
      destruct (indexInCode p s) as [[capture after]|] eqn:E; [|reflexivity].
      apply indexInCode_shorter in E.
      f_equal. apply IH; lia.
Qed.

Lemma digitValue_range (c : ascii) :
  isDigit c = true -> 0 <= digitValue c <= 9.
Proof.
  unfold isDigit, in_range, digitValue. intros H.
  apply andb_true_iff in H. destruct H as [H1 H2].
  apply N.leb_le in H1, H2. lia.
Qed.

Lemma readDigits_nonneg (s : string) :
  forall (acc : Z) (n : nat),
    0 <= acc -> 0 <= fst (fst (readDigits s acc n)).
Proof.
  induction s as [|c s IH]; intros acc n H; cbn [readDigits]; [exact H|].
  destruct (isDigit c) eqn:E; [|exact H].
  apply IH. pose proof (digitValue_range c E) as Hv.
  unfold digitValue in *. lia.
Qed.

Lemma toInt_range (digits : string) : 0 <= toInt digits <= Dbl.int_max.
Proof.
  unfold toInt.
  pose proof (readDigits_nonneg digits 0 0 (Z.le_refl 0)) as H.
  destruct (readDigits digits 0 0) as [[v n] r]. simpl in H.
  destruct (v <=? Dbl.int_max) eqn:E.
  - apply Z.leb_le in E. lia.
  - unfold Dbl.int_max. lia.
Qed.

(** X14: every code that [parseGCodes] or [parseMCodes] returns is an [int]
    that is not negative: a number too large for an [int] is read as 0. *)
Theorem parsed_codes_in_int_range :
  forall command : string,
    Forall (fun code => 0 <= code <= Dbl.int_max) (parseGCodes command) /\
    Forall (fun code => 0 <= code <= Dbl.int_max) (parseMCodes command).
Proof.
  assert (H : forall p fuel s,
             Forall (fun code => 0 <= code <= Dbl.int_max)
                    (parseCodeLoop fuel p s)).
  { intros p fuel. induction fuel as [|fuel IH]; intros s; simpl.
    - constructor.
    - destruct (indexInCode p s) as [[capture after]|]; [|constructor].
      constructor; [apply toInt_range | apply IH]. }
  intros command. split; apply H.
Qed.

Lemma span_digits_app (a b : string) :
  startsWithDigit b = false ->
  span isDigit (a ++ b)
  = (fst (span isDigit a), (snd (span isDigit a) ++ b)%string).
Proof.
  intros Hb. induction a as [|c a IH]; simpl.
  - destruct b as [|d b]; [reflexivity|]. simpl in Hb |- *. now rewrite Hb.
  - destruct (isDigit c); [|reflexivity].
    rewrite IH. now destruct (span isDigit a).
Qed.

Lemma matchCode_app (p : ascii -> bool) (a b : string) :
  startsWithDigit b = false ->
  a <> EmptyString ->
  matchCode p (a ++ b)
  = match matchCode p a with
    | Some (capture, after) => Some (capture, (after ++ b)%string)
    | None => None
    end.
Proof.
  intros Hb Ha. destruct a as [|c a]; [contradiction|]. simpl.
  destruct (p c); [|reflexivity].
  rewrite (span_digits_app a b Hb).
  destruct (span isDigit a) as [run after]. simpl.
  destruct (nonEmpty run); reflexivity.
Qed.

Lemma indexInCode_app (p : ascii -> bool) (a b : string) :
  startsWithDigit b = false ->
  indexInCode p (a ++ b)
  = match indexInCode p a with
    | Some (capture, after) => Some (capture, (after ++ b)%string)
    | None => indexInCode p b
    end.
Proof.
  intros Hb. induction a as [|c a IH].
  - simpl. destruct b; reflexivity.
  - change (String c a ++ b)%string with (String c (a ++ b)).
    cbn [indexInCode].
    change (String c (a ++ b)) with (String c a ++ b)%string.
    rewrite (matchCode_app p (String c a) b Hb) by discriminate.
    destruct (matchCode p (String c a)) as [[capture after]|];
      [reflexivity | exact IH].
Qed.

Lemma parseCodeLoop_app (p : ascii -> bool) (b : string) :
  startsWithDigit b = false ->
  forall (f : nat) (a : string),
    (length a <= f)%nat ->
    parseCodeLoop (f + length b) p (a ++ b)
    = parseCodeLoop f p a ++ parseCodeLoop (length b) p b.
Proof.
  intros Hb. induction f as [|f IH]; intros a Ha.
  - destruct a; [reflexivity | simpl in Ha; lia].
  - cbn [Nat.add parseCodeLoop].
    rewrite (indexInCode_app p a b Hb).
    destruct (indexInCode p a) as [[capture after]|] eqn:E.
    + apply indexInCode_shorter in E. simpl. f_equal. apply IH. lia.
    + simpl.
      rewrite (parseCodeLoop_fuel p (length b) (S (f + length b)) b)
        by lia.
      reflexivity.
Qed.

(** X15: codes are read piece by piece: when the second part of a command
    does not start with a digit, the codes of the whole are the codes of the
    first part followed by the codes of the second. *)
Theorem parsed_codes_of_concatenation :
  forall a b : string,
    startsWithDigit b = false ->
    parseGCodes (a ++ b) = parseGCodes a ++ parseGCodes b /\
    parseMCodes (a ++ b) = parseMCodes a ++ parseMCodes b.
Proof.
  intros a b Hb. unfold parseGCodes, parseMCodes.
  rewrite length_append.
  split; apply parseCodeLoop_app; auto.
Qed.

Lemma parsed_codes_of_concatenation_witness :
  startsWithDigit " G2 X1" = false /\
  parseGCodes ("G01" ++ " G2 X1") = parseGCodes "G01" ++ parseGCodes " G2 X1".
Proof.
  split; [reflexivity|].
  apply (parsed_codes_of_concatenation "G01" " G2 X1"). reflexivity.
Defined.

Lemma readDigits_value_count (s : string) :
  forall (acc : Z) (n m : nat),
    fst (fst (readDigits s acc n)) = fst (fst (readDigits s acc m)).
Proof.
  induction s as [|c s IH]; intros acc n m; simpl; [reflexivity|].
  destruct (isDigit c); [apply IH | reflexivity].
Qed.

Lemma decimalValue_dropZeros (run : string) :
  decimalValue (dropZeros run) = decimalValue run.
Proof.
  unfold decimalValue.
  induction run as [|c run IH]; [reflexivity|].
  destruct run as [|d run]; [destruct c as [[] [] [] [] [] [] [] []]; reflexivity|].
  destruct (Ascii.eqb c "0") eqn:E.
  - apply Ascii.eqb_eq in E. subst c.
    change (dropZeros (String "0" (String d run)))
      with (dropZeros (String d run)).
    rewrite IH.
    change (readDigits (String "0" (String d run)) 0 0)
      with (readDigits (String d run) 0 1).
    apply readDigits_value_count.
  - replace (dropZeros (String c (String d run))) with (String c (String d run));
      [reflexivity|].
    destruct c as [[] [] [] [] [] [] [] []]; try reflexivity; discriminate E.
Qed.

Lemma toInt_value (digits : string) :
  toInt digits
  = if decimalValue digits <=? Dbl.int_max then decimalValue digits else 0.
Proof.
  unfold toInt, decimalValue.
  destruct (readDigits digits 0 0) as [[v n] r]. reflexivity.
Qed.

Lemma span_run (p : ascii -> bool) (run rest : string) :
  allChars p run = true ->
  match rest with EmptyString => True | String c _ => p c = false end ->
  span p (run ++ rest) = (run, rest).
Proof.
  intros Hrun Hrest. rewrite span_app_all by assumption.
  destruct rest as [|c rest]; simpl.
  - now rewrite append_empty_r.
  - rewrite Hrest. simpl. now rewrite append_empty_r.
Qed.

(** X16: a code word, the letter G or g followed by digits, reads as the
    decimal number the digits write, leading zeros included (G01 is 1), and
    as 0 when that number is above the largest [int]; reading goes on after
    the digits.  The same holds for M and m. *)
Theorem parsed_code_word :
  forall (letter : ascii) (digits rest : string),
    nonEmpty digits = true ->
    allChars isDigit digits = true ->
    startsWithDigit rest = false ->
    (isG letter = true ->
     parseGCodes (String letter (digits ++ rest))
     = (if decimalValue digits <=? Dbl.int_max then decimalValue digits
        else 0) :: parseGCodes rest) /\
    (isM letter = true ->
     parseMCodes (String letter (digits ++ rest))
     = (if decimalValue digits <=? Dbl.int_max then decimalValue digits
        else 0) :: parseMCodes rest).
Proof.
  intros letter digits rest Hne Hd Hr.
  assert (H : forall p,
             p letter = true ->
             parseCodeLoop (length (String letter (digits ++ rest))) p
               (String letter (digits ++ rest))
             = (if decimalValue digits <=? Dbl.int_max
                then decimalValue digits else 0)
               :: parseCodeLoop (length rest) p rest).
  { intros p Hp. cbn [length parseCodeLoop indexInCode matchCode].
    rewrite Hp.
    rewrite (span_run isDigit digits rest Hd)
      by (destruct rest; [exact I | exact Hr]).
    rewrite Hne. rewrite toInt_value, decimalValue_dropZeros.
    f_equal. apply parseCodeLoop_fuel; [|lia].
    rewrite length_append. lia. }
  split; intros Hl; apply H; exact Hl.
Qed.

Lemma parsed_code_word_witness :
  (nonEmpty "01" = true /\ allChars isDigit "01" = true /\
   startsWithDigit " X5 G90" = false /\ isG "g" = true) /\
  parseGCodes (String "g" ("01" ++ " X5 G90")) = 1 :: parseGCodes " X5 G90".
Proof.
  split; [repeat split|].
  apply (parsed_code_word "g" "01" " X5 G90" eq_refl eq_refl eq_refl).
  reflexivity.
Defined.

(** ** Comments *)

Lemma span_all (p : ascii -> bool) (s : string) :
  allChars p s = true -> span p s = (s, EmptyString).
Proof.
  intros H. rewrite <- (append_empty_r s) at 1.
  rewrite span_app_all by assumption. simpl. now rewrite append_empty_r.
Qed.

Lemma afterLastClose_none (run : string) :
  afterLastClose run = None <-> noClose run = true.
Proof.
  unfold noClose. induction run as [|c run IH]; simpl; [tauto|].
  destruct (afterLastClose run) as [a|].
  - split; [discriminate|]. intros H. apply andb_true_iff in H.
    destruct H as [_ H]. apply IH in H. discriminate H.
  - destruct (isClose c); simpl; [split; discriminate|].
    split; intros _; [now apply IH | reflexivity].
Qed.

Lemma afterLastClose_some (run a : string) :
  afterLastClose run = Some a ->
  noClose a = true /\ (length a < length run)%nat /\
  (forall p, allChars p run = true -> allChars p a = true).
Proof.
  revert a. induction run as [|c run IH]; intros a; simpl; [discriminate|].
  destruct (afterLastClose run) as [b|] eqn:E.
  - intros H. injection H as <-.
    destruct (IH b eq_refl) as (H1 & H2 & H3).
    split; [exact H1|]. split; [lia|].
    intros p Hp. apply andb_true_iff in Hp. now apply H3.
  - destruct (isClose c); [|discriminate].
    intros H. injection H as <-.
    split; [now apply afterLastClose_none|]. split; [lia|].
    intros p Hp. now apply andb_true_iff in Hp.
Qed.

Lemma noClose_noCommentLeft (s : string) :
  noClose s = true -> noCommentLeft s = true.
Proof.
  unfold noCommentLeft, noClose. intros H.
  destruct (span_spec notOpen s) as [Hs _]. rewrite Hs in H.
  rewrite allChars_app in H. now apply andb_true_iff in H.
Qed.

(** The three ways the pattern of [removeComment] meets the start of a
    string. *)
Lemma matchParens_not_open (c : ascii) (rest : string) :
  isOpen c = false -> matchParens (String c rest) = None.
Proof. intros H. unfold matchParens. simpl. now rewrite H. Qed.

Lemma matchParens_open (c : ascii) (rest : string) :
  isOpen c = true ->
  match matchParens (String c rest) with
  | Some t =>
      headRunClean t = true /\ (length t + 2 <= length (String c rest))%nat
  | None => headRunClean rest = true
  end.
Proof.
  intros Hc. unfold matchParens. simpl span. rewrite Hc.
  destruct (span_spec isOpen rest) as (Hr & Ho & Hs1).
  pose proof (span_length isOpen rest) as Hlen1.
  destruct (span isOpen rest) as [opens s1]. simpl in Hr, Ho, Hs1, Hlen1.
  change (nonEmpty (String c opens)) with true. cbv iota.
  destruct (span_spec notOpen s1) as (Hs & Hrun & Hs2).
  pose proof (span_length notOpen s1) as Hlen2.
  destruct (span notOpen s1) as [run s2] eqn:Espan.
  simpl in Hs, Hrun, Hs2, Hlen2.
  assert (Hstop : span notOpen s2 = (EmptyString, s2)).
  { destruct s2 as [|d s2]; [reflexivity|]. now apply span_stop. }
  destruct (afterLastClose run) as [a|] eqn:Ea.
  - destruct (afterLastClose_some run a Ea) as (Ha1 & Ha2 & Ha3).
    split.
    + unfold headRunClean. rewrite span_app_all by now apply Ha3.
      rewrite Hstop. simpl. now rewrite append_empty_r.
    + rewrite length_append. simpl. lia.
  - apply afterLastClose_none in Ea. unfold headRunClean.
    destruct opens as [|o opens].
    + simpl in Hr. subst rest. now rewrite Espan.
    + simpl in Ho. apply andb_true_iff in Ho. destruct Ho as [Ho _].
      rewrite Hr. simpl. unfold notOpen at 1. now rewrite Ho.
Qed.

(** After [removeParens], a text whose first stretch has no closing
    parenthesis has none at all. *)
Lemma removeParens_noClose (fuel : nat) :
  forall s : string,
    (length s <= fuel)%nat ->
    headRunClean s = true -> noClose (removeParens fuel s) = true.
Proof.
  induction fuel as [|fuel IH]; intros s Hlen Hs.
  - destruct s; [reflexivity | simpl in Hlen; lia].
  - destruct s as [|c rest]; [reflexivity|]. cbn [removeParens].
    destruct (isOpen c) eqn:Ec.
    + pose proof (matchParens_open c rest Ec) as Hm.
      destruct (matchParens (String c rest)) as [t|].
      * destruct Hm as [Ht Hl]. apply IH; [simpl in Hl, Hlen; lia | exact Ht].
      * unfold noClose. simpl. fold (noClose (removeParens fuel rest)).
        rewrite IH; [|simpl in Hlen; lia | exact Hm].
        unfold isOpen, isClose in *. apply Ascii.eqb_eq in Ec. now subst c.
    + rewrite matchParens_not_open by assumption.
      unfold headRunClean in Hs. simpl in Hs. unfold notOpen at 1 in Hs.
      rewrite Ec in Hs. simpl in Hs.
      destruct (span notOpen rest) as [run s2] eqn:E. simpl in Hs.
      unfold noClose in Hs. simpl in Hs.
      apply andb_true_iff in Hs. destruct Hs as [Hc Hrun].
      unfold noClose. simpl. rewrite Hc. simpl.
      apply IH; [simpl in Hlen; lia|].
      unfold headRunClean. now rewrite E.
Qed.

Lemma noCommentLeft_cons (c : ascii) (rest : string) :
  noCommentLeft (String c rest)
  = if isOpen c then noClose rest else noCommentLeft rest.
Proof.
  unfold noCommentLeft. simpl. unfold notOpen at 1.
  destruct (isOpen c) eqn:Ec; simpl.
  - unfold noClose. simpl. unfold isOpen, isClose in *.
    apply Ascii.eqb_eq in Ec. now subst c.
  - now destruct (span notOpen rest).
Qed.

Lemma removeParens_clean (fuel : nat) :
  forall s : string,
    (length s <= fuel)%nat -> noCommentLeft (removeParens fuel s) = true.
Proof.
  induction fuel as [|fuel IH]; intros s Hlen.
  - destruct s; [reflexivity | simpl in Hlen; lia].
  - destruct s as [|c rest]; [reflexivity|]. cbn [removeParens].
    destruct (isOpen c) eqn:Ec.
    + pose proof (matchParens_open c rest Ec) as Hm.
      destruct (matchParens (String c rest)) as [t|].
      * destruct Hm as [_ Hl]. apply IH. simpl in Hl, Hlen. lia.
      * rewrite noCommentLeft_cons, Ec.
        apply removeParens_noClose; [simpl in Hlen; lia | exact Hm].
    + rewrite matchParens_not_open by assumption.
      rewrite noCommentLeft_cons, Ec. apply IH. simpl in Hlen. lia.
Qed.

Lemma matchParens_clean (s : string) :
  noCommentLeft s = true -> matchParens s = None.
Proof.
  destruct s as [|c rest]; [reflexivity|].
  rewrite noCommentLeft_cons.
  destruct (isOpen c) eqn:Ec; [|intros _; now apply matchParens_not_open].
  intros Hn. unfold matchParens. simpl span. rewrite Ec.
  destruct (span_spec isOpen rest) as (Hr & _).
  destruct (span isOpen rest) as [opens s1]. simpl in Hr.
  change (nonEmpty (String c opens)) with true. cbv iota.
  destruct (span_spec notOpen s1) as (Hs & _).
  destruct (span notOpen s1) as [run s2]. simpl in Hs.
  assert (Hrun : noClose run = true).
  { unfold noClose in *. rewrite Hr, Hs, !allChars_app in Hn.
    apply andb_true_iff in Hn. destruct Hn as [_ Hn].
    now apply andb_true_iff in Hn. }
  apply afterLastClose_none in Hrun. now rewrite Hrun.
Qed.

Lemma removeParens_fixed (fuel : nat) :
  forall s : string, noCommentLeft s = true -> removeParens fuel s = s.
Proof.
  induction fuel as [|fuel IH]; intros s Hs; [reflexivity|].
  destruct s as [|c rest]; [reflexivity|]. cbn [removeParens].
  rewrite (matchParens_clean _ Hs). f_equal. apply IH.
  rewrite noCommentLeft_cons in Hs.
  destruct (isOpen c); [now apply noClose_noCommentLeft | exact Hs].
Qed.

Lemma noCommentLeft_prefix (a b : string) :
  noCommentLeft (a ++ b) = true -> noCommentLeft a = true.
Proof.
  induction a as [|c a IH]; [reflexivity|].
  change (String c a ++ b)%string with (String c (a ++ b)).
  rewrite !noCommentLeft_cons. destruct (isOpen c); [|exact IH].
  unfold noClose. rewrite allChars_app. intros H.
  now apply andb_true_iff in H.
Qed.

Lemma noCommentLeft_suffix (a b : string) :
  noCommentLeft (a ++ b) = true -> noCommentLeft b = true.
Proof.
  induction a as [|c a IH]; [trivial|].
  change (String c a ++ b)%string with (String c (a ++ b)).
  rewrite noCommentLeft_cons. destruct (isOpen c); [|exact IH].
  unfold noClose. rewrite allChars_app. intros H.
  apply andb_true_iff in H. now apply noClose_noCommentLeft.
Qed.

(** [trimmed] takes a stretch out of the middle of the string. *)
Lemma dropSpaces_suffix (s : string) :
  exists sp : string, s = (sp ++ dropSpaces s)%string.
Proof.
  induction s as [|c s [sp IH]]; [now exists EmptyString|]. simpl.
  destruct (isSpace c).
  - exists (String c sp). simpl. now rewrite <- IH.
  - now exists EmptyString.
Qed.

Lemma dropTrailingSpaces_prefix (s : string) :
  exists sp : string, s = (dropTrailingSpaces s ++ sp)%string.
Proof.
  induction s as [|c s [sp IH]]; [now exists EmptyString|]. simpl.
  destruct (dropTrailingSpaces s) as [|d t].
  - destruct (isSpace c).
    + now exists (String c s).
    + exists sp. simpl. now rewrite IH at 1.
  - exists sp. simpl. now rewrite IH at 1.
Qed.

Lemma trimmed_middle (s : string) :
  exists a b : string, s = (a ++ trimmed s ++ b)%string.
Proof.
  destruct (dropSpaces_suffix s) as [a Ha].
  destruct (dropTrailingSpaces_prefix (dropSpaces s)) as [b Hb].
  exists a, b. unfold trimmed. now rewrite <- Hb.
Qed.

Lemma dropTrailingSpaces_idempotent (s : string) :
  dropTrailingSpaces (dropTrailingSpaces s) = dropTrailingSpaces s.
Proof.
  induction s as [|c s IH]; [reflexivity|]. simpl.
  destruct (dropTrailingSpaces s) as [|d t] eqn:E.
  - destruct (isSpace c) eqn:Ec; [reflexivity|]. simpl. now rewrite Ec.
  - simpl in IH |- *. now rewrite IH.
Qed.

Lemma dropSpaces_head (s : string) :
  match dropSpaces s with
  | EmptyString => True
  | String c _ => isSpace c = false
  end.
Proof.
  induction s as [|c s IH]; simpl; [exact I|].
  destruct (isSpace c) eqn:E; [exact IH | exact E].
Qed.

Lemma dropTrailingSpaces_head (c : ascii) (s : string) :
  dropTrailingSpaces (String c s) = EmptyString \/
  exists t, dropTrailingSpaces (String c s) = String c t.
Proof.
  simpl. destruct (dropTrailingSpaces s) as [|d t].
  - destruct (isSpace c); [now left | right; now exists EmptyString].
  - right. now exists (String d t).
Qed.

Lemma trimmed_idempotent (s : string) : trimmed (trimmed s) = trimmed s.
Proof.
  unfold trimmed. pose proof (dropSpaces_head s) as Hh.
  destruct (dropSpaces s) as [|c u]; [reflexivity|].
  destruct (dropTrailingSpaces_head c u) as [E | [t E]]; rewrite E.
  - reflexivity.
  - simpl dropSpaces. rewrite Hh. rewrite <- E.
    apply dropTrailingSpaces_idempotent.
Qed.

Lemma cutSemicolon_spec (s : string) :
  allChars notSemicolon (cutSemicolon s) = true /\
  exists rest, s = (cutSemicolon s ++ rest)%string.
Proof.
  unfold cutSemicolon. destruct (span_spec notSemicolon s) as (H1 & H2 & _).
  split; [exact H2 | now exists (snd (span notSemicolon s))].
Qed.

(** What [removeComment] returns. *)
Lemma removeComment_result (command : string) :
  allChars notSemicolon (removeComment command) = true /\
  noCommentLeft (removeComment command) = true /\
  trimmed (removeComment command) = removeComment command.
Proof.
  unfold removeComment.
  set (r := removeParens (length command) command).
  assert (Hr : noCommentLeft r = true)
    by (apply removeParens_clean; lia).
  destruct (cutSemicolon_spec r) as [Hsemi [rest Hcut]].
  destruct (trimmed_middle (cutSemicolon r)) as (a & b & Hab).
  split; [|split].
  - rewrite Hab, !allChars_app in Hsemi.
    apply andb_true_iff in Hsemi. destruct Hsemi as [_ Hsemi].
    now apply andb_true_iff in Hsemi.
  - rewrite Hcut in Hr. apply noCommentLeft_prefix in Hr.
    rewrite Hab in Hr. apply noCommentLeft_suffix in Hr.
    now apply noCommentLeft_prefix in Hr.
  - apply trimmed_idempotent.
Qed.

(** X17: what [removeComment] returns has no semicolon, no closing
    parenthesis after an opening one (no parenthesized comment is left),
    and no white space at either end: trimming it again changes nothing and
    its first character is no white space. *)
Theorem removeComment_leaves_no_comment :
  forall command : string,
    allChars notSemicolon (removeComment command) = true /\
    noCommentLeft (removeComment command) = true /\
    trimmed (removeComment command) = removeComment command /\
    match headChar (removeComment command) with
    | None => True
    | Some c => isSpace c = false
    end.
Proof.
  intros command.
  destruct (removeComment_result command) as (H1 & H2 & H3).
  repeat split; try assumption.
  rewrite <- H3. unfold trimmed.
  pose proof (dropSpaces_head (removeComment command)) as Hh.
  destruct (dropSpaces (removeComment command)) as [|c u]; [exact I|].
  destruct (dropTrailingSpaces_head c u) as [E | [t E]]; rewrite E;
    [exact I | exact Hh].
Qed.

Lemma removeComment_clean_input (s : string) :
  noCommentLeft s = true ->
  allChars notSemicolon s = true ->
  removeComment s = trimmed s.
Proof.
  intros Hc Hs. unfold removeComment.
  rewrite removeParens_fixed by assumption.
  unfold cutSemicolon. now rewrite span_all.
Qed.

(** X18: [removeComment] is idempotent: a second pass finds nothing to
    remove. *)
Theorem removeComment_idempotent :
  forall command : string,
    removeComment (removeComment command) = removeComment command.
Proof.
  intros command.
  destruct (removeComment_result command) as (H1 & H2 & H3).
  rewrite removeComment_clean_input by assumption. exact H3.
Qed.

(** X23: a command that has no semicolon and no closing parenthesis after
    an opening one is only trimmed: the white space inside it stays, and so
    does an opening parenthesis that is never closed. *)
Theorem removeComment_without_comment :
  forall command : string,
    noCommentLeft command = true ->
    allChars notSemicolon command = true ->
    removeComment command = trimmed command.
Proof. intros command Hc Hs. now apply removeComment_clean_input. Qed.

Lemma removeComment_without_comment_witness :
  (noCommentLeft "  G1  X1 (open " = true /\
   allChars notSemicolon "  G1  X1 (open " = true) /\
  removeComment "  G1  X1 (open " = "G1  X1 (open"%string.
Proof.
  split; [split; reflexivity|].
  rewrite (removeComment_without_comment "  G1  X1 (open " eq_refl eq_refl).
  reflexivity.
Defined.

Lemma parseComment_none (s : string) :
  noCommentLeft s = true ->
  allChars notSemicolon s = true ->
  parseComment s = EmptyString.
Proof.
  induction s as [|c rest IH]; intros Hc Hs; [reflexivity|].
  simpl in Hs. apply andb_true_iff in Hs. destruct Hs as [Hsc Hs].
  unfold notSemicolon in Hsc. apply negb_true_iff in Hsc.
  rewrite noCommentLeft_cons in Hc.
  cbn [parseComment matchComment]. rewrite Hsc.
  destruct (isOpen c) eqn:Ec.
  - destruct (span_spec notParen rest) as (Hr & _).
    destruct (span notParen rest) as [body after]. simpl in Hr.
    assert (Hafter : noClose after = true).
    { unfold noClose in *. rewrite Hr, allChars_app in Hc.
      now apply andb_true_iff in Hc. }
    destruct after as [|d after].
    + apply IH; [now apply noClose_noCommentLeft | exact Hs].
    + unfold noClose in Hafter. simpl in Hafter.
      apply andb_true_iff in Hafter. destruct Hafter as [Hd _].
      apply negb_true_iff in Hd. rewrite Hd.
      apply IH; [now apply noClose_noCommentLeft | exact Hs].
  - now apply IH.
Qed.

(** X19: after [removeComment] there is no comment for [parseComment] to
    find: it returns the empty string. *)
Theorem parseComment_after_removeComment :
  forall command : string,
    parseComment (removeComment command) = EmptyString.
Proof.
  intros command.
  destruct (removeComment_result command) as (H1 & H2 & _).
  now apply parseComment_none.
Qed.

(** X20: what [parseComment] returns is the empty string or a stretch of
    the command with its delimiters: a parenthesis, characters that are no
    parentheses and the closing parenthesis, or a semicolon and all that
    follows to the end of the command, the first character after the
    semicolon not being a semicolon. *)
Theorem parseComment_shape :
  forall command : string,
    parseComment command = EmptyString \/
    exists pre post : string,
      command = (pre ++ parseComment command ++ post)%string /\
      ((exists body : string,
           parseComment command
           = String "(" (body ++ String ")" EmptyString) /\
           allChars notParen body = true) \/
       (exists (c : ascii) (rest : string),
           parseComment command = String ";" (String c rest) /\
           isSemicolon c = false /\ post = EmptyString)).
Proof.
  induction command as [|c rest IH]; [now left|].
  cbn [parseComment].
  destruct (matchComment (String c rest)) as [capture|] eqn:E.
  - right. simpl in E.
    destruct (isOpen c) eqn:Ec.
    + destruct (span_spec notParen rest) as (Hr & Hb & _).
      destruct (span notParen rest) as [body after]. simpl in Hr, Hb.
      destruct after as [|d after]; [discriminate E|].
      destruct (isClose d) eqn:Ed; [|discriminate E].
      injection E as <-.
      unfold isOpen in Ec. apply Ascii.eqb_eq in Ec.
      unfold isClose in Ed. apply Ascii.eqb_eq in Ed. subst c d.
      exists EmptyString, after. split.
      * simpl. rewrite Hr, append_assoc. reflexivity.
      * left. now exists body.
    + destruct (isSemicolon c) eqn:Es; [|discriminate E].
      destruct rest as [|d rest]; [discriminate E|].
      destruct (isSemicolon d) eqn:Ed; [discriminate E|].
      injection E as <-.
      unfold isSemicolon in Es. apply Ascii.eqb_eq in Es. subst c.
      exists EmptyString, EmptyString. split.
      * simpl. now rewrite append_empty_r.
      * right. now exists d, rest.
  - destruct IH as [IH | (pre & post & Hc & Hform)]; [now left|].
    right. exists (String c pre), post. split; [|exact Hform].
    simpl. now rewrite <- Hc.
Qed.

(** ** White space *)

Lemma removeAllWhitespace_app (a b : string) :
  removeAllWhitespace (a ++ b)
  = (removeAllWhitespace a ++ removeAllWhitespace b)%string.
Proof.
  induction a as [|c a IH]; [reflexivity|]. simpl.
  destruct (isSpace c); simpl; now rewrite IH.
Qed.

Lemma removeAllWhitespace_fixed (s : string) :
  allChars (fun c => negb (isSpace c)) s = true -> removeAllWhitespace s = s.
Proof.
  induction s as [|c s IH]; [reflexivity|]. simpl. intros H.
  apply andb_true_iff in H. destruct H as [Hc Hs].
  apply negb_true_iff in Hc. rewrite Hc. now rewrite IH.
Qed.

(** X21: [removeAllWhitespace] leaves no white space, changes nothing in a
    command that has none (so it is idempotent), and works piece by piece
    on a concatenation. *)
Theorem removeAllWhitespace_properties :
  forall a b : string,
    allChars (fun c => negb (isSpace c)) (removeAllWhitespace a) = true /\
    removeAllWhitespace (removeAllWhitespace a) = removeAllWhitespace a /\
    removeAllWhitespace (a ++ b)
    = (removeAllWhitespace a ++ removeAllWhitespace b)%string /\
    trimmed (removeAllWhitespace a) = removeAllWhitespace a.
Proof.
  intros a b.
  assert (H : allChars (fun c => negb (isSpace c)) (removeAllWhitespace a)
              = true).
  { induction a as [|c a IH]; [reflexivity|]. simpl.
    destruct (isSpace c) eqn:E; [exact IH|]. simpl. now rewrite E, IH. }
  split; [exact H|]. split; [now apply removeAllWhitespace_fixed|].
  split; [apply removeAllWhitespace_app|].
  revert H. generalize (removeAllWhitespace a) as s. intros s Hs.
  unfold trimmed.
  assert (Hd : dropSpaces s = s).
  { destruct s as [|c s]; [reflexivity|]. simpl in Hs |- *.
    apply andb_true_iff in Hs. destruct Hs as [Hc _].
    apply negb_true_iff in Hc. now rewrite Hc. }
  rewrite Hd. clear Hd.
  induction s as [|c s IH]; [reflexivity|]. simpl in Hs |- *.
  apply andb_true_iff in Hs. destruct Hs as [Hc Hs].
  apply negb_true_iff in Hc. rewrite (IH Hs).
  destruct s; [now rewrite Hc | reflexivity].
Qed.

(** ** Formatting a move: [generateG1FromPoints] *)

Lemma isWord_letter_number (c : ascii) (t : string) :
  isLetter c = true -> isNumberText t = true -> isWord (String c t) = true.
Proof.
  intros Hc Ht. unfold isNumberText in Ht.
  apply andb_true_iff in Ht. destruct Ht as [Hne Hshape].
  destruct t as [|d r]; [discriminate Hne|].
  pose proof Hshape as Hd. simpl in Hd. apply andb_true_iff in Hd.
  destruct Hd as [Hd _].
  unfold isWord. simpl span. rewrite Hc.
  rewrite (isNumStart_not_letter d Hd). simpl. exact Hshape.
Qed.

Lemma generateG1_render (number : double -> Z -> string)
    (start end_ : QVector3D) (absoluteMode : bool) (precision : Z) :
  generateG1FromPoints number start end_ absoluteMode precision
  = render
      (map (fun w => (EmptyString, w))
         ("G1"%string
          :: writtenWord number start end_ absoluteMode precision AxisX
          ++ writtenWord number start end_ absoluteMode precision AxisY
          ++ writtenWord number start end_ absoluteMode precision AxisZ))
      EmptyString.
Proof.
  unfold generateG1FromPoints, writtenWord, writtenValue. simpl component.
  destruct absoluteMode;
    destruct (Dbl.is_nan (vx end_)), (Dbl.is_nan (vy end_)),
             (Dbl.is_nan (vz end_)); simpl;
    rewrite ?append_empty_r, ?append_assoc; simpl;
    rewrite ?append_assoc; reflexivity.
Qed.

(** X22: the command that [generateG1FromPoints] writes is read back word
    for word.  When the text written for each axis is a number as the
    tokenizer reads one (not empty, an optional '-', digits and '.'), the
    tokenizer splits the command into G1 and one word for each axis of the
    end point that is no NaN, and [updatePointWithCommand] on the command
    updates exactly those axes, each with the conversion of its text. *)
Theorem generateG1_read_back :
  forall (strtod : string -> option double) (number : double -> Z -> string)
         (start end_ : QVector3D) (absoluteMode : bool) (precision : Z)
         (initial : QVector3D) (updateMode : bool),
    (forall a : Axis,
        Dbl.is_nan (component a end_) = false ->
        isNumberText
          (number (writtenValue start end_ absoluteMode a) precision)
        = true) ->
    splitCommand (generateG1FromPoints number start end_ absoluteMode
                    precision)
    = "G1"%string
      :: writtenWord number start end_ absoluteMode precision AxisX
      ++ writtenWord number start end_ absoluteMode precision AxisY
      ++ writtenWord number start end_ absoluteMode precision AxisZ /\
    updatePointWithCommandStr strtod
      (generateG1FromPoints number start end_ absoluteMode precision)
      initial updateMode
    = updatePointWithCommand initial
        (readBack strtod number start end_ absoluteMode precision AxisX)
        (readBack strtod number start end_ absoluteMode precision AxisY)
        (readBack strtod number start end_ absoluteMode precision AxisZ)
        updateMode.
Proof.
  intros strtod number start end_ absoluteMode precision initial updateMode
         Hnum.
  assert (Htokens :
            splitCommand (generateG1FromPoints number start end_ absoluteMode
                            precision)
            = "G1"%string
              :: writtenWord number start end_ absoluteMode precision AxisX
              ++ writtenWord number start end_ absoluteMode precision AxisY
              ++ writtenWord number start end_ absoluteMode precision AxisZ).
  { rewrite generateG1_render, splitCommand_of_words.
    - rewrite map_map. simpl. now rewrite map_id.
    - rewrite forallb_forall. intros [gap w] Hin.
      apply in_map_iff in Hin. destruct Hin as (w' & Hw & Hin).
      injection Hw as <- <-. unfold wellFormedItem. simpl.
      destruct Hin as [<- | Hin]; [reflexivity|].
      assert (Hword : forall a,
                 In w' (writtenWord number start end_ absoluteMode precision a)
                 -> isWord w' = true).
      { intros a Ha. unfold writtenWord in Ha.
        destruct (Dbl.is_nan (component a end_)) eqn:E; [contradiction|].
        destruct Ha as [<- | []].
        apply isWord_letter_number; [now destruct a | now apply Hnum]. }
      apply in_app_or in Hin. destruct Hin as [Hin | Hin];
        [now apply (Hword AxisX)|].
      apply in_app_or in Hin. destruct Hin as [Hin | Hin];
        [now apply (Hword AxisY) | now apply (Hword AxisZ)].
    - reflexivity. }
  split; [exact Htokens|].
  unfold updatePointWithCommandStr, updatePointWithCommandArgs.
  rewrite Htokens. unfold writtenWord, readBack. simpl component.
  destruct (Dbl.is_nan (vx end_)), (Dbl.is_nan (vy end_)),
           (Dbl.is_nan (vz end_)); reflexivity.
Qed.

Lemma generateG1_read_back_witness :
  (forall a : Axis,
      Dbl.is_nan (component a (mkQVector3D (Flt.make 21 (-1)) Dbl.nan
                                 (Flt.of_int (-4)))) = false ->
      isNumberText
        (fixed_number
           (writtenValue (point 1 2 3)
              (mkQVector3D (Flt.make 21 (-1)) Dbl.nan (Flt.of_int (-4)))
              false a) 3) = true) /\
  splitCommand
    (generateG1FromPoints fixed_number (point 1 2 3)
       (mkQVector3D (Flt.make 21 (-1)) Dbl.nan (Flt.of_int (-4))) false 3)
  = ["G1"; "X9.500"; "Z-7.000"]%string.
Proof.
  assert (H : forall a : Axis,
             Dbl.is_nan (component a (mkQVector3D (Flt.make 21 (-1)) Dbl.nan
                                        (Flt.of_int (-4)))) = false ->
             isNumberText
               (fixed_number
                  (writtenValue (point 1 2 3)
                     (mkQVector3D (Flt.make 21 (-1)) Dbl.nan
                        (Flt.of_int (-4)))
                     false a) 3) = true).
  { intros [| |] Ha; [reflexivity | discriminate Ha | reflexivity]. }
  split; [exact H|].
  destruct (generateG1_read_back decimal_strtod fixed_number (point 1 2 3)
              (mkQVector3D (Flt.make 21 (-1)) Dbl.nan (Flt.of_int (-4)))
              false 3 (point 0 0 0) true H) as [Ht _].
  rewrite Ht. reflexivity.
Defined.

(** ** The sign of the radius *)

Lemma opp_involutive (a : double) : Dbl.opp (Dbl.opp a) = a.
Proof. destruct a; simpl; now rewrite ?negb_involutive. Qed.

(** The sign given to the rounding is the sign of its result. *)
Lemma binary_round_aux_opp (prec emax : Z) (s : bool) (m e : Z)
    (l : location) :
  SFopp (binary_round_aux prec emax s m e l)
  = binary_round_aux prec emax (negb s) m e l.
Proof.
  unfold binary_round_aux.
  destruct (shr_fexp prec emax m e l) as [mrs' e'].
  destruct (shr_fexp prec emax _ e' loc_Exact) as [mrs'' e''].
  destruct (shr_m mrs''); try reflexivity.
  destruct (e'' <=? emax - prec); reflexivity.
Qed.

Lemma mul_opp_r (a b : double) :
  Dbl.mul a (Dbl.opp b) = Dbl.opp (Dbl.mul a b).
Proof.
  destruct a as [sa|sa| |sa ma ea], b as [sb|sb| |sb mb eb]; simpl;
    try reflexivity; try (now rewrite negb_xorb_r).
  unfold Dbl.opp. rewrite binary_round_aux_opp. now rewrite negb_xorb_r.
Qed.

Lemma mul_opp_l (a b : double) :
  Dbl.mul (Dbl.opp a) b = Dbl.opp (Dbl.mul a b).
Proof.
  destruct a as [sa|sa| |sa ma ea], b as [sb|sb| |sb mb eb]; simpl;
    try reflexivity; try (now rewrite negb_xorb_l).
  unfold Dbl.opp. rewrite binary_round_aux_opp. now rewrite negb_xorb_l.
Qed.

Lemma discriminant_opp (start end_ : QVector3D) (R : double) :
  discriminant start end_ (Dbl.opp R) = discriminant start end_ R.
Proof.
  unfold discriminant.
  now rewrite !mul_opp_r, mul_opp_l, opp_involutive.
Qed.

(** X24: the sign of the radius and the direction compensate: a negative
    radius with one direction gives the same center as the positive radius
    with the other direction. *)
Theorem convertRToCenter_negative_radius :
  forall (hypot : double -> double -> double) (start end_ : QVector3D)
         (R : double) (absoluteIJK clockwise : bool),
    Dbl.gtb R Dbl.zero = true ->
    convertRToCenter hypot start end_ (Dbl.opp R) absoluteIJK
      (negb clockwise)
    = convertRToCenter hypot start end_ R absoluteIJK clockwise.
Proof.
  intros hypot start end_ R absoluteIJK clockwise HR.
  assert (Hpos : Dbl.ltb R Dbl.zero = false)
    by (destruct R as [[]|[]| |[] m e]; try discriminate HR; reflexivity).
  assert (Hneg : Dbl.ltb (Dbl.opp R) Dbl.zero = true)
    by (destruct R as [[]|[]| |[] m e]; try discriminate HR; reflexivity).
  assert (Hh : h_x2_div_d hypot start end_ (Dbl.opp R) (negb clockwise)
               = h_x2_div_d hypot start end_ R clockwise).
  { unfold h_x2_div_d. rewrite discriminant_opp, Hpos, Hneg.
    destruct clockwise; simpl; [apply opp_involutive | reflexivity]. }
  unfold convertRToCenter, offsetX, offsetY. now rewrite Hh.
Qed.

Lemma convertRToCenter_negative_radius_witness :
  Dbl.gtb (Dbl.of_int 5) Dbl.zero = true /\
  convertRToCenter hypot_naive (point 10 0 0) (point 18 0 0)
    (Dbl.opp (Dbl.of_int 5)) false (negb true)
  = convertRToCenter hypot_naive (point 10 0 0) (point 18 0 0)
      (Dbl.of_int 5) false true.
Proof.
  split; [reflexivity|].
  apply (convertRToCenter_negative_radius hypot_naive (point 10 0 0)
           (point 18 0 0) (Dbl.of_int 5) false true).
  reflexivity.
Defined.

(** ** The half circle *)

(** Shifting and rounding keep a mantissa that is not negative so. *)
Lemma shr_1_nonneg (mrs : shr_record) :
  0 <= shr_m mrs -> 0 <= shr_m (shr_1 mrs).
Proof.
  destruct mrs as [m r s]. simpl.
  destruct m as [|[p|p|]|[p|p|]]; simpl; lia.
Qed.

Lemma iter_shr_1_nonneg (p : positive) :
  forall mrs : shr_record,
    0 <= shr_m mrs -> 0 <= shr_m (SpecFloat.iter_pos shr_1 p mrs).
Proof.
  induction p as [p IH|p IH|]; intros mrs H; simpl.
  - apply IH, IH, shr_1_nonneg, H.
  - apply IH, IH, H.
  - apply shr_1_nonneg, H.
Qed.

Lemma shr_fexp_nonneg (prec emax m e : Z) (l : location) :
  0 <= m -> 0 <= shr_m (fst (shr_fexp prec emax m e l)).
Proof.
  intros H. unfold shr_fexp, shr.
  assert (H0 : 0 <= shr_m (shr_record_of_loc m l))
    by (destruct l as [|[]]; exact H).
  destruct (fexp prec emax (Zdigits2 m + e) - e); simpl;
    [exact H0 | now apply iter_shr_1_nonneg | exact H0].
Qed.

Lemma binary_round_aux_not_nan (prec emax : Z) (s : bool) (m e : Z)
    (l : location) :
  0 <= m -> Dbl.is_nan (binary_round_aux prec emax s m e l) = false.
Proof.
  intros H. unfold binary_round_aux.
  pose proof (shr_fexp_nonneg prec emax m e l H) as H1.
  destruct (shr_fexp prec emax m e l) as [mrs' e']. simpl in H1.
  assert (H2 : 0 <= round_nearest_even (shr_m mrs') (loc_of_shr_record mrs')).
  { unfold round_nearest_even.
    destruct (loc_of_shr_record mrs') as [|[]]; try lia.
    destruct (Z.even (shr_m mrs')); lia. }
  pose proof (shr_fexp_nonneg prec emax _ e' loc_Exact H2) as H3.
  destruct (shr_fexp prec emax _ e' loc_Exact) as [mrs'' e'']. simpl in H3.
  destruct (shr_m mrs'') as [|p|p]; [reflexivity | | lia].
  destruct (e'' <=? emax - prec); reflexivity.
Qed.

(** Half a finite number equals itself. *)
Lemma half_eqb_refl (a : double) :
  isFinite a = true ->
  Dbl.eqb (Dbl.mul (Dbl.make 1 (-1)) a) (Dbl.mul (Dbl.make 1 (-1)) a) = true.
Proof.
  intros H. apply dbl_eqb_refl.
  destruct a as [s| | |s m e]; try discriminate H; [reflexivity|].
  apply binary_round_aux_not_nan. lia.
Qed.

(** X25: the boundary between a possible and an impossible arc, where the
    chord is twice the radius and [4 R^2 - dx^2 - dy^2] is zero, has no
    division anomaly: for a finite chord and a [hypot] that is finite and
    positive on it, [h_x2_div_d] is a zero and the offset of the center is
    half the chord in X and in Y, the center of the half circle. *)
Theorem convertRToCenter_half_circle :
  forall (hypot : double -> double -> double) (start end_ : QVector3D)
         (R : double) (clockwise : bool),
    isZero (discriminant start end_ R) = true ->
    isFinite (chordX start end_) = true ->
    isFinite (chordY start end_) = true ->
    isFinite (hypot (chordX start end_) (chordY start end_)) = true ->
    Dbl.gtb (hypot (chordX start end_) (chordY start end_)) Dbl.zero = true ->
    isZero (h_x2_div_d hypot start end_ R clockwise) = true /\
    Dbl.eqb (offsetX hypot start end_ R clockwise)
            (Dbl.mul (Dbl.make 1 (-1)) (chordX start end_)) = true /\
    Dbl.eqb (offsetY hypot start end_ R clockwise)
            (Dbl.mul (Dbl.make 1 (-1)) (chordY start end_)) = true.
Proof.
  intros hypot start end_ R clockwise Hd Hx Hy Hf Hp.
  assert (Hh : exists s, h_x2_div_d hypot start end_ R clockwise
                         = S754_zero s).
  { unfold h_x2_div_d.
    destruct (discriminant start end_ R) as [sd| | |]; try discriminate Hd.
    destruct (hypot (chordX start end_) (chordY start end_))
      as [[]|[]| |[] m e]; try discriminate Hf; try discriminate Hp.
    destruct sd, clockwise, (Dbl.ltb R Dbl.zero); simpl; eexists;
      reflexivity. }
  destruct Hh as [s Hh].
  split; [now rewrite Hh|].
  unfold offsetX, offsetY. rewrite Hh.
  pose proof (half_eqb_refl _ Hx) as Hrx.
  pose proof (half_eqb_refl _ Hy) as Hry.
  destruct (chordX start end_) as [sx| | |sx mx ex];
    try discriminate Hx;
    destruct (chordY start end_) as [sy| | |sy my ey];
    try discriminate Hy.
  - split; destruct sx, sy, s; reflexivity.
  - split; [destruct sx, sy, s; reflexivity | exact Hry].
  - split; [exact Hrx | destruct sx, sy, s; reflexivity].
  - split; [exact Hrx | exact Hry].
Qed.

Lemma convertRToCenter_half_circle_witness :
  (isZero (discriminant (point 10 0 0) (point 20 0 0) (Dbl.of_int 5)) = true /\
   isFinite (chordX (point 10 0 0) (point 20 0 0)) = true /\
   isFinite (chordY (point 10 0 0) (point 20 0 0)) = true /\
   isFinite (hypot_naive (chordX (point 10 0 0) (point 20 0 0))
               (chordY (point 10 0 0) (point 20 0 0))) = true /\
   Dbl.gtb (hypot_naive (chordX (point 10 0 0) (point 20 0 0))
              (chordY (point 10 0 0) (point 20 0 0))) Dbl.zero = true) /\
  Dbl.eqb (offsetX hypot_naive (point 10 0 0) (point 20 0 0) (Dbl.of_int 5)
             true)
          (Dbl.mul (Dbl.make 1 (-1)) (chordX (point 10 0 0) (point 20 0 0)))
  = true.
Proof.
  split; [repeat split|].
  apply (convertRToCenter_half_circle hypot_naive (point 10 0 0)
           (point 20 0 0) (Dbl.of_int 5) true); reflexivity.
Defined.
